(** * Period-avoiding single-redundancy-bit code: model and verification

    A shallow embedding of [main.cpp]: the bit-integer codec
    ([toBinary], [fromBinary]), the period analyser ([ComputeZ],
    [ComputePeriods], [ComputeMinPeriod]) and the encoder/decoder pair
    ([encode], [decode]).

    Modelling conventions.
    - [std::vector<int>] is [list Z]; every indexed access, slice, erase
      and insert checks its range the way the C++ library requires it and
      yields [Fault] outside of it.
    - [int] values are integers of [Z]; the places where the width of
      [int] (32 bits) decides the result -- the shifts of the codec and
      the accumulation in [fromBinary] -- are written out ([shl], [shr],
      [add]).  Index arithmetic is done in [Z]; the theorems on [encode]
      and [decode] assume that [n + 1] is an [int] value.
    - [assert] is active: a failing assertion yields [AssertFail].
    - [for] loops run on a counter computed from their bounds; [while]
      loops whose number of iterations is not known from their bounds take
      an explicit fuel and yield [OutOfFuel] when it is exhausted.
    - [decode] is modelled with a ghost log of its backward scans
      ([decode_run]); the log does not enter the computation, and
      [decode] is the projection to the decoded vector.
    - [main] is modelled with its parameters [n] and [p] as arguments
      ([driver]); of its console output only the progress values are
      kept. *)

From Stdlib Require Import ZArith List Lia Bool Sorted.
Import ListNotations.
Local Open Scope Z_scope.

(** ** Outcomes of a call *)

Inductive outcome (A : Type) : Type :=
| Ret (a : A)      (* normal return *)
| Fault            (* undefined behaviour or an uncaught library exception *)
| AssertFail       (* an [assert] of the program failed *)
| OutOfFuel.       (* the model's loop bound was reached *)

Arguments Ret {A} a.
Arguments Fault {A}.
Arguments AssertFail {A}.
Arguments OutOfFuel {A}.

Definition bind {A B : Type} (m : outcome A) (k : A -> outcome B) : outcome B :=
  match m with
  | Ret a => k a
  | Fault => Fault
  | AssertFail => AssertFail
  | OutOfFuel => OutOfFuel
  end.

Notation "x <- m ;; k" := (bind m (fun x => k))
  (at level 61, m at next level, right associativity).
Notation "' pat <- m ;; k" := (bind m (fun x => match x with pat => k end))
  (at level 61, pat pattern, m at next level, right associativity).

(** [for (int j = lo; j < hi; j++) body] on a loop state of type [S]. *)
Fixpoint for_fuel {S : Type} (fuel : nat) (j hi : Z)
    (body : Z -> S -> outcome S) (st : S) : outcome S :=
  if j <? hi then
    match fuel with
    | O => OutOfFuel
    | Datatypes.S f => st' <- body j st ;; for_fuel f (j + 1) hi body st'
    end
  else Ret st.

Definition for_loop {S : Type} (lo hi : Z) (body : Z -> S -> outcome S) (st : S)
  : outcome S :=
  for_fuel (Z.to_nat (hi - lo)) lo hi body st.

(** ** Vectors *)

Definition vi := list Z.

Definition size (v : vi) : Z := Z.of_nat (length v).

(** [v[i]] as an rvalue *)
Definition at_ (v : vi) (i : Z) : outcome Z :=
  if (0 <=? i) && (i <? size v) then Ret (nth (Z.to_nat i) v 0) else Fault.

(** [v[i] = x] *)
Definition set_at (v : vi) (i x : Z) : outcome vi :=
  if (0 <=? i) && (i <? size v)
  then Ret (firstn (Z.to_nat i) v ++ x :: skipn (Z.to_nat (i + 1)) v)
  else Fault.

(** [vi(v.begin() + a, v.begin() + b)] *)
Definition range (v : vi) (a b : Z) : outcome vi :=
  if (0 <=? a) && (a <=? b) && (b <=? size v)
  then Ret (firstn (Z.to_nat (b - a)) (skipn (Z.to_nat a) v))
  else Fault.

(** [v.erase(v.begin() + a, v.begin() + b)] *)
Definition erase (v : vi) (a b : Z) : outcome vi :=
  if (0 <=? a) && (a <=? b) && (b <=? size v)
  then Ret (firstn (Z.to_nat a) v ++ skipn (Z.to_nat b) v)
  else Fault.

(** [v.erase(v.end() - 1)] *)
Definition erase_last (v : vi) : outcome vi :=
  if 1 <=? size v then Ret (firstn (Z.to_nat (size v - 1)) v) else Fault.

(** [v.insert(v.begin() + pos, count, x)] *)
Definition insert_n (v : vi) (pos count x : Z) : outcome vi :=
  if (0 <=? pos) && (pos <=? size v) && (0 <=? count)
  then Ret (firstn (Z.to_nat pos) v ++ repeat x (Z.to_nat count)
              ++ skipn (Z.to_nat pos) v)
  else Fault.

(** [*std::min_element(v.begin(), v.end())]: on an empty vector
    [min_element] returns [end()], which must not be dereferenced. *)
Definition min_element (v : vi) : outcome Z :=
  match v with
  | [] => Fault
  | x :: r => Ret (fold_left Z.min r x)
  end.

(** ** 32-bit [int] operations of the codec *)

Definition int_min : Z := - 2 ^ 31.
Definition int_max : Z := 2 ^ 31 - 1.

(** the [int] congruent to [x] modulo [2^32] *)
Definition wrap (x : Z) : Z := (x + 2 ^ 31) mod 2 ^ 32 - 2 ^ 31.

(** [x << j]: the shift count must be below the width of [int]; the
    result is the product reduced to [int] (the value [1 << 31] is the
    least [int]). *)
Definition shl (x j : Z) : outcome Z :=
  if (0 <=? j) && (j <? 32) then Ret (wrap (Z.shiftl x j)) else Fault.

(** [x >> j] *)
Definition shr (x j : Z) : outcome Z :=
  if (0 <=? j) && (j <? 32) then Ret (Z.shiftr x j) else Fault.

(** [x + y] on [int]: overflow is undefined *)
Definition add (x y : Z) : outcome Z :=
  if (int_min <=? x + y) && (x + y <=? int_max) then Ret (x + y) else Fault.

(** ** Util. *)

(** [vi out (N)]: a vector of [N] zeros; a negative [N] becomes a huge
    [size_t] and the constructor throws. *)
Definition make (N : Z) : outcome vi :=
  if 0 <=? N then Ret (repeat 0 (Z.to_nat N)) else Fault.

Definition toBinary (i N : Z) : outcome vi :=
  out <- make N ;;
  for_loop 0 N
    (fun j out =>
       m <- shl 1 j ;;
       b <- shr (Z.land i m) j ;;
       set_at out j b)
    out.

Definition fromBinary (bin : vi) (N : Z) : outcome Z :=
  for_loop 0 N
    (fun j out =>
       b <- at_ bin j ;;
       t <- shl b j ;;
       add out t)
    0.

(** ** Period computation *)

Record zstate : Type := mkZ { zv : vi; zL : Z; zR : Z }.

(** [while (R < n && s[R-L] == s[R]) R++;] *)
Fixpoint extend (fuel : nat) (s : vi) (n L R : Z) : outcome Z :=
  if R <? n then
    a <- at_ s (R - L) ;;
    b <- at_ s R ;;
    if a =? b then
      match fuel with
      | O => OutOfFuel
      | S f => extend f s n L (R + 1)
      end
    else Ret R
  else Ret R.

Definition ComputeZ_body (s : vi) (n : Z) (i : Z) (st : zstate) : outcome zstate :=
  if zR st <? i then
    R <- extend (Z.to_nat n) s n i i ;;
    z <- set_at (zv st) (i - 1) (R - i) ;;
    Ret (mkZ z i (R - 1))
  else
    let k := i - zL st in
    zk <- at_ (zv st) (k - 1) ;;
    if zk <? zR st - i + 1 then
      z <- set_at (zv st) (i - 1) zk ;;
      Ret (mkZ z (zL st) (zR st))
    else
      R <- extend (Z.to_nat n) s n i (zR st) ;;
      z <- set_at (zv st) (i - 1) (R - i) ;;
      Ret (mkZ z i (R - 1)).

Definition ComputeZ (s : vi) : outcome vi :=
  let n := size s in
  z <- make n ;;
  st <- for_loop 1 n (ComputeZ_body s n) (mkZ z 0 0) ;;
  Ret (zv st).

Definition ComputePeriods (s : vi) : outcome vi :=
  let n := size s in
  z <- ComputeZ s ;;
  for_loop 1 (n + 1)
    (fun i periods =>
       zi <- at_ z (i - 1) ;;
       if i + zi =? n then Ret (periods ++ [i]) else Ret periods)
    [].

Definition ComputeMinPeriod (s : vi) : outcome Z :=
  periods <- ComputePeriods s ;;
  min_element periods.

(** ** Proposed encoder/decoder *)

(** [int log2_n = ceil(log2(n))]: for [n <= 0] the logarithm is not a
    finite number and its conversion to [int] is undefined. *)
Definition ceil_log2 (n : Z) : outcome Z :=
  if 1 <=? n then Ret (Z.log2_up n) else Fault.

(** The body of [if (period < p)] up to its assertion: the repair of the
    window at [i]. *)
Definition repair (l p log2_n i period : Z) (out : vi) : outcome vi :=
  out <- erase out (i + p) (i + l) ;;
  out <- set_at out (i + period) 1 ;;
  out <- for_loop (i + period + 1) (i + p) (fun j out => set_at out j 0) out ;;
  index_encoding <- toBinary i log2_n ;;
  let out := out ++ index_encoding in
  Ret (out ++ [0]).

(** The repair followed by [assert(out.size() == n + 1)]. *)
Definition correct (n l p log2_n i period : Z) (out : vi) : outcome vi :=
  out <- repair l p log2_n i period out ;;
  if size out =? n + 1 then Ret out else AssertFail.

(** The body of the scan [for (int i = 0; i < (n+1)-(l-1); i++)]. *)
Definition scan_body (n l p log2_n : Z) (i : Z) (st : vi * bool)
  : outcome (vi * bool) :=
  let '(out, found) := st in
  v_sub <- range out i (i + l) ;;
  period <- ComputeMinPeriod v_sub ;;
  if period <? p then
    out <- correct n l p log2_n i period out ;;
    Ret (out, true)
  else Ret (out, found).

Definition scan (n l p log2_n : Z) (out : vi) : outcome (vi * bool) :=
  for_loop 0 ((n + 1) - (l - 1)) (scan_body n l p log2_n) (out, false).

(** [while (true) { ...; if (!found) break; }] *)
Fixpoint encode_loop (fuel : nat) (n l p log2_n : Z) (out : vi) : outcome vi :=
  match fuel with
  | O => OutOfFuel
  | S f =>
      ' (out, found) <- scan n l p log2_n out ;;
      if found then encode_loop f n l p log2_n out else Ret out
  end.

Definition encode (fuel : nat) (input : vi) (n l p : Z) : outcome vi :=
  log2_n <- ceil_log2 n ;;
  encode_loop fuel n l p log2_n (input ++ [1]).

(** [while (in[j] == 0) j--;] *)
Fixpoint scan_back (fuel : nat) (v : vi) (j : Z) : outcome Z :=
  b <- at_ v j ;;
  if b =? 0 then
    match fuel with
    | O => OutOfFuel
    | S f => scan_back f v (j - 1)
    end
  else Ret j.

(** One entry of the scan log of [decode]: the [index] read from the
    record, the position [j] at which the backward scan stopped and the
    bit found there. *)
Record scan_entry : Type := mkEntry { e_index : Z; e_stop : Z; e_bit : Z }.

(** One iteration of the body of [while (in[n] == 0)].  Besides the new
    vector it reports the entry of its backward scan. *)
Definition unwind (n l p log2_n : Z) (v : vi) : outcome (vi * scan_entry) :=
  v <- erase_last v ;;
  index_encoding <- range v (size v - log2_n) (size v) ;;
  index <- fromBinary index_encoding log2_n ;;
  v <- erase v (size v - log2_n) (size v) ;;
  j <- scan_back (Z.to_nat (index + p)) v (index + p - 1) ;;
  let e := mkEntry index j (nth (Z.to_nat j) v 0) in
  let period := j - index in
  v <- insert_n v (index + p) (l - p) 0 ;;
  v <- for_loop (index + period) (index + l)
         (fun i v => x <- at_ v (i - period) ;; set_at v i x) v ;;
  if size v =? n + 1 then Ret (v, e) else AssertFail.

(** The loop of [decode]; the second component lists the entries of the
    iterations, the first iteration first. *)
Fixpoint decode_loop (fuel : nat) (n l p log2_n : Z) (v : vi) (log : list scan_entry)
  : outcome (vi * list scan_entry) :=
  match fuel with
  | O => OutOfFuel
  | S f =>
      b <- at_ v n ;;
      if b =? 0 then
        ' (v, e) <- unwind n l p log2_n v ;;
        decode_loop f n l p log2_n v (log ++ [e])
      else Ret (v, log)
  end.

Definition decode_run (fuel : nat) (out : vi) (n l p : Z)
  : outcome (vi * list scan_entry) :=
  log2_n <- ceil_log2 n ;;
  ' (v, log) <- decode_loop fuel n l p log2_n out [] ;;
  v <- erase_last v ;;
  Ret (v, log).

Definition decode (fuel : nat) (out : vi) (n l p : Z) : outcome vi :=
  ' (v, _) <- decode_run fuel out n l p ;; Ret v.

(** The positions visited by the backward scans of a run of [decode]. *)
Definition decode_scans (fuel : nat) (out : vi) (n l p : Z)
  : outcome (list scan_entry) :=
  ' (_, log) <- decode_run fuel out n l p ;; Ret log.

(** ** Testing *)

(** [a / b] and [a % b] on [int]: division by zero, and the quotient
    [INT_MIN / -1], are undefined. *)
Definition div_int (a b : Z) : outcome Z :=
  if (b =? 0) || ((a =? int_min) && (b =? -1)) then Fault else Ret (Z.quot a b).

Definition rem_int (a b : Z) : outcome Z :=
  if (b =? 0) || ((a =? int_min) && (b =? -1)) then Fault else Ret (Z.rem a b).

(** The checks of [main] on the input number [num]: build the input,
    encode it, assert the period bound on every window, decode and assert
    that the input is recovered. *)
Definition check_input (fuel : nat) (n l p num : Z) : outcome unit :=
  v <- make n ;;
  v <- for_loop 0 n
         (fun i v =>
            m <- shl 1 i ;;
            b <- shr (Z.land num m) i ;;
            set_at v i b)
         v ;;
  encoded <- encode fuel v n l p ;;
  _ <- for_loop 0 ((n + 1) - (l - 1))
         (fun i (_ : unit) =>
            v_sub <- range encoded i (i + l) ;;
            period <- ComputeMinPeriod v_sub ;;
            if period >=? p then Ret tt else AssertFail)
         tt ;;
  decoded <- decode fuel encoded n l p ;;
  if list_eq_dec Z.eq_dec decoded v then Ret tt else AssertFail.

(** The progress report at the end of an iteration of [main]; of the
    console output only the progress values for which a bar is drawn are
    kept, in the order of printing. *)
Definition report (n num : Z) (shown : list Z) : outcome (list Z) :=
  one <- shl 1 n ;;
  step <- div_int one 100 ;;
  r <- rem_int num step ;;
  if r =? 0 then
    one <- shl 1 n ;;
    step <- div_int one 100 ;;
    progress <- div_int num step ;;
    Ret (shown ++ [progress])
  else Ret shown.

(** [main] with its two parameters [n] and [p]; [fuel] bounds the loops
    of [encode] and [decode]. *)
Definition driver (fuel : nat) (n p : Z) : outcome (list Z) :=
  log2_n <- ceil_log2 n ;;
  min_l <- add log2_n p ;;
  min_l <- add min_l 1 ;;
  let l := min_l in
  if l >=? min_l then
    hi <- shl 1 n ;;
    for_loop 0 hi
      (fun num shown =>
         _ <- check_input fuel n l p num ;;
         report n num shown)
      []
  else AssertFail.

Definition main (fuel : nat) : outcome (list Z) := driver fuel 20 14.

(** ** Specification vocabulary *)

(** [Znth v i]: the element at index [i], [0] outside of the vector. *)
Definition Znth (v : vi) (i : Z) : Z := nth (Z.to_nat i) v 0.

(** The vector that [v[i] = x] leaves. *)
Definition upd (v : vi) (i x : Z) : vi :=
  firstn (Z.to_nat i) v ++ x :: skipn (Z.to_nat (i + 1)) v.

(** The integers [lo], [lo+1], ... ([k] of them). *)
Fixpoint zseq (lo : Z) (k : nat) : list Z :=
  match k with
  | O => []
  | S k' => lo :: zseq (lo + 1) k'
  end.

(** The [w] low bits of [v], least significant first. *)
Definition bits (v w : Z) : vi :=
  map (fun j => Z.b2z (Z.testbit v j)) (zseq 0 (Z.to_nat w)).

(** The length of the longest common prefix of [u] and [v]. *)
Fixpoint lcp (u v : vi) : Z :=
  match u, v with
  | x :: u', y :: v' => if x =? y then 1 + lcp u' v' else 0
  | _, _ => 0
  end.

(** The Z-array of the specification: [Zarray s i] is the length of the
    longest common prefix of [s] and the suffix of [s] starting at [i]. *)
Definition Zarray (s : vi) (i : Z) : Z := lcp s (skipn (Z.to_nat i) s).

(** [k] is the length of the longest common prefix of [s] and its suffix
    at [i], stated on indices. *)
Definition lcp_at (s : vi) (i k : Z) : Prop :=
  0 <= k /\ i + k <= size s /\
  (forall j, 0 <= j < k -> Znth s j = Znth s (i + j)) /\
  (i + k < size s -> Znth s k <> Znth s (i + k)).

(** [q] is a period of [s]. *)
Definition is_period (s : vi) (q : Z) : Prop :=
  1 <= q <= size s /\
  forall j, 0 <= j -> j + q < size s -> Znth s j = Znth s (j + q).

(** The invariant of the loop of [ComputeZ] at the head of iteration [i]. *)
Definition Zinv (s : vi) (i : Z) (st : zstate) : Prop :=
  size (zv st) = size s /\
  (forall m, 1 <= m < i -> lcp_at s m (Znth (zv st) (m - 1))) /\
  (forall m, i <= m <= size s -> Znth (zv st) (m - 1) = 0) /\
  0 <= zL st < i /\ zL st <= zR st + 1 /\ zR st < size s /\
  (zL st = 0 -> zR st = 0) /\
  (forall j, zL st <= j <= zR st -> Znth s j = Znth s (j - zL st)).

(** The period list as the specification words it: the [p] in [1..|s|],
    ascending, with [p + Z[p] == |s|].  ([Zarray s (size s)] is [0]: the
    suffix at [|s|] is empty.) *)
Definition periods_spec (s : vi) : vi :=
  filter (fun p => p + Zarray s p =? size s) (zseq 1 (length s)).

(** The working vector after the erase and the marker writes of a repair
    at [i] with period [q]. *)
Definition collapsed (l p i q : Z) (w : vi) : vi :=
  firstn (Z.to_nat (i + q)) w ++ 1 :: repeat 0 (Z.to_nat (p - q - 1))
    ++ skipn (Z.to_nat (i + l)) w.

(** One correction as the scan performs it: the window at [i] has minimal
    period [q < p] and is repaired into [w']. *)
Definition corr (n l p log2_n : Z) (w w' : vi) (i q : Z) : Prop :=
  0 <= i < (n + 1) - (l - 1) /\
  exists win,
    range w i (i + l) = Ret win /\
    ComputeMinPeriod win = Ret q /\
    q < p /\
    correct n l p log2_n i q w = Ret w'.

(** [chain k w w']: [k] corrections lead from [w] to [w']. *)
Inductive chain (n l p log2_n : Z) : nat -> vi -> vi -> Prop :=
| chain_refl w : chain n l p log2_n 0 w w
| chain_step k w v v' i q :
    chain n l p log2_n k w v ->
    corr n l p log2_n v v' i q ->
    chain n l p log2_n (S k) w v'.

(** A vector of bits. *)
Definition bitvec (v : vi) : Prop := Forall (fun x => x = 0 \/ x = 1) v.

(** All bit vectors of length [k]. *)
Fixpoint all_bits (k : nat) : list vi :=
  match k with
  | O => [[]]
  | S k' => map (cons 0) (all_bits k') ++ map (cons 1) (all_bits k')
  end.

(** The window at [i] of [out] passes the period check of the scan. *)
Definition window_ok (l p : Z) (out : vi) (i : Z) : Prop :=
  exists win q,
    range out i (i + l) = Ret win /\ ComputeMinPeriod win = Ret q /\ p <= q.

(** What the backward scan of an unwind iteration must report: it stops
    at or above [index], not above [index + p - 1], on a bit equal to 1. *)
Definition scan_ok (p : Z) (e : scan_entry) : Prop :=
  e_index e <= e_stop e <= e_index e + p - 1 /\ e_bit e = 1.

(** The parameter triples on which the coder is total: [n] and [n + 1]
    are [int] values, [p >= 1] and [l] is exactly [p + ceil(log2 n) + 1]. *)
Definition valid (n l p : Z) : Prop :=
  1 <= n /\ n + 1 <= int_max /\ 1 <= p /\ l = p + Z.log2_up n + 1.

(** A number of passes of the [while (true)] loop of [encode] that always
    suffices. *)
Definition passes (n : Z) : nat := (2 ^ Z.to_nat (n + 1))%nat.

(** The integer that a vector of bits denotes, least significant bit
    first. *)
Fixpoint bvalue (b : vi) : Z :=
  match b with
  | [] => 0
  | x :: r => x + 2 * bvalue r
  end.

(** * Proofs *)

(** ** The outcome monad and loops *)

Lemma bind_Ret_inv {A B} (m : outcome A) (k : A -> outcome B) (b : B) :
  bind m k = Ret b -> exists a, m = Ret a /\ k a = Ret b.
Proof. destruct m; simpl; intros H; try discriminate. eauto. Qed.

Ltac bind_inv H :=
  let a := fresh "a" in
  let E := fresh "E" in
  apply bind_Ret_inv in H; destruct H as (a & E & H).

Section ForLoop.
Context {S : Type}.
Variable body : Z -> S -> outcome S.
Variable hi : Z.

Lemma for_fuel_total (P : Z -> S -> Prop) :
  (forall j s, j < hi -> P j s -> exists s', body j s = Ret s' /\ P (j + 1) s') ->
  forall fuel j st,
    j <= hi -> (Z.to_nat (hi - j) <= fuel)%nat -> P j st ->
    exists st', for_fuel fuel j hi body st = Ret st' /\ P hi st'.
Proof.
  intros Hstep fuel. induction fuel as [|f IH]; intros j st Hle Hfuel HP; simpl.
  - assert (j = hi) by lia. subst j.
    rewrite Z.ltb_irrefl. eauto.
  - destruct (Z.ltb_spec j hi) as [Hlt|Hge].
    + destruct (Hstep j st Hlt HP) as (s' & Hb & HP').
      rewrite Hb. simpl. apply IH; [lia | lia | assumption].
    + assert (j = hi) by lia. subst j. eauto.
Qed.

Lemma for_fuel_Ret (P : Z -> S -> Prop) :
  (forall j s s', j < hi -> P j s -> body j s = Ret s' -> P (j + 1) s') ->
  forall fuel j st st',
    j <= hi -> P j st ->
    for_fuel fuel j hi body st = Ret st' -> P hi st'.
Proof.
  intros Hstep fuel. induction fuel as [|f IH]; intros j st st' Hle HP; simpl.
  - destruct (Z.ltb_spec j hi); [discriminate|].
    intros [= <-]. assert (j = hi) by lia. now subst j.
  - destruct (Z.ltb_spec j hi) as [Hlt|Hge].
    + intros H. bind_inv H. apply (IH (j + 1) a st'); [lia | eauto | assumption].
    + intros [= <-]. assert (j = hi) by lia. now subst j.
Qed.

Lemma for_fuel_empty fuel j st : hi <= j -> for_fuel fuel j hi body st = Ret st.
Proof.
  intros H. destruct fuel; simpl; destruct (Z.ltb_spec j hi); try lia; reflexivity.
Qed.
End ForLoop.

(** Total correctness of a [for] loop from an invariant. *)
Lemma for_loop_total {S} (P : Z -> S -> Prop) lo hi (body : Z -> S -> outcome S) st :
  lo <= hi -> P lo st ->
  (forall j s, lo <= j < hi -> P j s -> exists s', body j s = Ret s' /\ P (j + 1) s') ->
  exists st', for_loop lo hi body st = Ret st' /\ P hi st'.
Proof.
  intros Hle HP Hstep. unfold for_loop.
  destruct (for_fuel_total body hi (fun j s => lo <= j /\ P j s)) with
    (fuel := Z.to_nat (hi - lo)) (j := lo) (st := st) as (st' & E & _ & HP');
    try lia; eauto.
  - intros j s Hj [Hlo Hp]. destruct (Hstep j s) as (s' & Hb & Hp'); try lia; eauto.
    exists s'. repeat split; auto; lia.
  - split; [lia | assumption].
Qed.

(** Partial correctness of a [for] loop whose body may fail. *)
Lemma for_loop_Ret {S} (P : Z -> S -> Prop) lo hi (body : Z -> S -> outcome S) st st' :
  lo <= hi -> P lo st ->
  (forall j s s', lo <= j < hi -> P j s -> body j s = Ret s' -> P (j + 1) s') ->
  for_loop lo hi body st = Ret st' -> P hi st'.
Proof.
  intros Hle HP Hstep H. unfold for_loop in H.
  assert (lo <= hi /\ P hi st') as [_ Hp]; [|exact Hp].
  refine (for_fuel_Ret body hi (fun j s => lo <= j /\ P j s) _ _ lo st st' Hle _ H).
  - intros j s s' Hj [Hlo Hp] Hb. split; [lia|]. apply (Hstep j s s'); auto; lia.
  - split; [lia | assumption].
Qed.

Lemma for_loop_empty {S} lo hi (body : Z -> S -> outcome S) st :
  hi <= lo -> for_loop lo hi body st = Ret st.
Proof. intros H. unfold for_loop. now apply for_fuel_empty. Qed.

(** ** Vectors *)

Lemma size_nonneg v : 0 <= size v.
Proof. unfold size. lia. Qed.

Lemma size_nil : size [] = 0.
Proof. reflexivity. Qed.

Lemma size_cons x v : size (x :: v) = size v + 1.
Proof. unfold size. simpl length. lia. Qed.

Lemma size_app u v : size (u ++ v) = size u + size v.
Proof. unfold size. rewrite length_app. lia. Qed.

Lemma size_repeat x k : size (repeat x k) = Z.of_nat k.
Proof. unfold size. now rewrite repeat_length. Qed.

Lemma size_firstn k v : size (firstn k v) = Z.min (Z.of_nat k) (size v).
Proof. unfold size. rewrite length_firstn. lia. Qed.

Lemma size_skipn k v : size (skipn k v) = Z.max 0 (size v - Z.of_nat k).
Proof. unfold size. rewrite length_skipn. lia. Qed.

Create Rewrite HintDb vsize.
#[local] Hint Rewrite size_nil size_cons size_app size_repeat : vsize.

Lemma size_upd v i x : 0 <= i < size v -> size (upd v i x) = size v.
Proof.
  intros H. unfold upd. rewrite size_app, size_cons, size_firstn, size_skipn. lia.
Qed.

Lemma Znth_app u v k :
  0 <= k -> Znth (u ++ v) k = if k <? size u then Znth u k else Znth v (k - size u).
Proof.
  intros Hk. unfold Znth, size.
  destruct (Z.ltb_spec k (Z.of_nat (length u))).
  - apply app_nth1. lia.
  - rewrite app_nth2 by lia. f_equal. lia.
Qed.

Lemma Znth_firstn k v j : 0 <= j < Z.of_nat k -> Znth (firstn k v) j = Znth v j.
Proof.
  intros H. unfold Znth. rewrite nth_firstn.
  destruct (Nat.ltb_spec (Z.to_nat j) k); [reflexivity | exfalso; lia].
Qed.

Lemma Znth_skipn k v j : 0 <= j -> Znth (skipn k v) j = Znth v (Z.of_nat k + j).
Proof. intros H. unfold Znth. rewrite nth_skipn. f_equal. lia. Qed.

Lemma Znth_repeat x k j :
  0 <= j -> Znth (repeat x k) j = if j <? Z.of_nat k then x else 0.
Proof.
  intros Hj. unfold Znth. destruct (Z.ltb_spec j (Z.of_nat k)).
  - apply nth_repeat_lt. lia.
  - apply nth_overflow. rewrite repeat_length. lia.
Qed.

Lemma Znth_cons x v j : 0 <= j -> Znth (x :: v) j = if j =? 0 then x else Znth v (j - 1).
Proof.
  intros H. unfold Znth. destruct (Z.eqb_spec j 0) as [->|Hne]; [reflexivity|].
  replace (Z.to_nat j) with (S (Z.to_nat (j - 1))) by lia. reflexivity.
Qed.

Lemma Znth_upd v i x k :
  0 <= i < size v -> 0 <= k ->
  Znth (upd v i x) k = if k =? i then x else Znth v k.
Proof.
  intros Hi Hk. unfold upd.
  rewrite Znth_app, size_firstn by lia.
  destruct (Z.ltb_spec k (Z.min (Z.of_nat (Z.to_nat i)) (size v))).
  - rewrite Znth_firstn by lia. destruct (Z.eqb_spec k i); [lia | reflexivity].
  - rewrite Znth_cons by lia.
    replace (Z.min (Z.of_nat (Z.to_nat i)) (size v)) with i in * by lia.
    destruct (Z.eqb_spec (k - i) 0), (Z.eqb_spec k i); try lia; try reflexivity.
    rewrite Znth_skipn by lia. f_equal. lia.
Qed.

Lemma vi_ext (u v : vi) :
  size u = size v -> (forall k, 0 <= k < size u -> Znth u k = Znth v k) -> u = v.
Proof.
  unfold size, Znth. intros Hs H. apply (nth_ext u v 0 0); [lia|].
  intros m Hm. specialize (H (Z.of_nat m)). rewrite Nat2Z.id in H. apply H. lia.
Qed.

Lemma at_ok v i : 0 <= i < size v -> at_ v i = Ret (Znth v i).
Proof.
  intros H. unfold at_.
  destruct (Z.leb_spec 0 i), (Z.ltb_spec i (size v)); try lia. reflexivity.
Qed.

Lemma set_at_ok v i x : 0 <= i < size v -> set_at v i x = Ret (upd v i x).
Proof.
  intros H. unfold set_at.
  destruct (Z.leb_spec 0 i), (Z.ltb_spec i (size v)); try lia. reflexivity.
Qed.

Lemma range_ok v a b :
  0 <= a <= b -> b <= size v ->
  range v a b = Ret (firstn (Z.to_nat (b - a)) (skipn (Z.to_nat a) v)).
Proof.
  intros H1 H2. unfold range.
  destruct (Z.leb_spec 0 a), (Z.leb_spec a b), (Z.leb_spec b (size v)); try lia.
  reflexivity.
Qed.

Lemma range_inv v a b w :
  range v a b = Ret w ->
  0 <= a <= b /\ b <= size v /\ size w = b - a /\
  forall k, 0 <= k < b - a -> Znth w k = Znth v (a + k).
Proof.
  unfold range.
  destruct (Z.leb_spec 0 a), (Z.leb_spec a b), (Z.leb_spec b (size v));
    simpl; try discriminate.
  intros [= <-]. repeat split; try lia.
  - rewrite size_firstn, size_skipn. lia.
  - intros k Hk. rewrite Znth_firstn, Znth_skipn by lia. f_equal. lia.
Qed.

Lemma erase_ok v a b :
  0 <= a <= b -> b <= size v ->
  erase v a b = Ret (firstn (Z.to_nat a) v ++ skipn (Z.to_nat b) v).
Proof.
  intros H1 H2. unfold erase.
  destruct (Z.leb_spec 0 a), (Z.leb_spec a b), (Z.leb_spec b (size v)); try lia.
  reflexivity.
Qed.

Lemma erase_inv v a b w :
  erase v a b = Ret w ->
  0 <= a <= b /\ b <= size v /\ size w = size v - (b - a) /\
  forall k, 0 <= k -> Znth w k = if k <? a then Znth v k else Znth v (k + (b - a)).
Proof.
  unfold erase.
  destruct (Z.leb_spec 0 a), (Z.leb_spec a b), (Z.leb_spec b (size v));
    simpl; try discriminate.
  intros [= <-]. repeat split; try lia.
  - rewrite size_app, size_firstn, size_skipn. lia.
  - intros k Hk. rewrite Znth_app, size_firstn by lia.
    replace (Z.min (Z.of_nat (Z.to_nat a)) (size v)) with a by lia.
    destruct (Z.ltb_spec k a).
    + apply Znth_firstn. lia.
    + rewrite Znth_skipn by lia. f_equal. lia.
Qed.

Lemma erase_last_ok v : 1 <= size v ->
  erase_last v = Ret (firstn (Z.to_nat (size v - 1)) v).
Proof. intros H. unfold erase_last. destruct (Z.leb_spec 1 (size v)); [reflexivity | lia]. Qed.

Lemma erase_last_app v x : erase_last (v ++ [x]) = Ret v.
Proof.
  rewrite erase_last_ok by (rewrite size_app, size_cons, size_nil; pose proof (size_nonneg v); lia).
  f_equal. rewrite size_app, size_cons, size_nil.
  replace (Z.to_nat (size v + (0 + 1) - 1)) with (length v) by (unfold size; lia).
  rewrite firstn_app, firstn_all, Nat.sub_diag. simpl. apply app_nil_r.
Qed.

Lemma insert_n_ok v pos count x :
  0 <= pos <= size v -> 0 <= count ->
  insert_n v pos count x =
  Ret (firstn (Z.to_nat pos) v ++ repeat x (Z.to_nat count) ++ skipn (Z.to_nat pos) v).
Proof.
  intros H1 H2. unfold insert_n.
  destruct (Z.leb_spec 0 pos), (Z.leb_spec pos (size v)), (Z.leb_spec 0 count); try lia.
  reflexivity.
Qed.

Lemma insert_n_inv v pos count x w :
  insert_n v pos count x = Ret w ->
  0 <= pos <= size v /\ 0 <= count /\ size w = size v + count /\
  forall k, 0 <= k ->
    Znth w k = if k <? pos then Znth v k
               else if k <? pos + count then x else Znth v (k - count).
Proof.
  unfold insert_n.
  destruct (Z.leb_spec 0 pos), (Z.leb_spec pos (size v)), (Z.leb_spec 0 count);
    simpl; try discriminate.
  intros [= <-]. repeat split; try lia.
  - rewrite !size_app, size_firstn, size_repeat, size_skipn. lia.
  - intros k Hk. rewrite Znth_app, size_firstn by lia.
    replace (Z.min (Z.of_nat (Z.to_nat pos)) (size v)) with pos by lia.
    destruct (Z.ltb_spec k pos).
    + apply Znth_firstn. lia.
    + rewrite Znth_app, size_repeat by lia.
      rewrite Z2Nat.id by lia.
      destruct (Z.ltb_spec (k - pos) count), (Z.ltb_spec k (pos + count)); try lia.
      * rewrite Znth_repeat by lia.
        destruct (Z.ltb_spec (k - pos) (Z.of_nat (Z.to_nat count))); [reflexivity | lia].
      * rewrite Znth_skipn by lia. f_equal. lia.
Qed.

Lemma make_ok N : 0 <= N -> make N = Ret (repeat 0 (Z.to_nat N)).
Proof. intros H. unfold make. destruct (Z.leb_spec 0 N); [reflexivity | lia]. Qed.

Lemma Znth_zseq_map (f : Z -> Z) lo k j :
  0 <= j < Z.of_nat k -> Znth (map f (zseq lo k)) j = f (lo + j).
Proof.
  revert lo j. induction k as [|k IH]; intros lo j Hj; [lia|].
  simpl zseq. simpl map. rewrite Znth_cons by lia.
  destruct (Z.eqb_spec j 0) as [->|Hne].
  - f_equal. lia.
  - rewrite IH by lia. f_equal. lia.
Qed.

Lemma length_zseq lo k : length (zseq lo k) = k.
Proof. revert lo. induction k; intros lo; simpl; [reflexivity | now rewrite IHk]. Qed.

Lemma In_zseq lo k x : In x (zseq lo k) <-> lo <= x < lo + Z.of_nat k.
Proof.
  revert lo. induction k as [|k IH]; intros lo; simpl.
  - lia.
  - rewrite IH. lia.
Qed.

Lemma zseq_snoc lo k : zseq lo (S k) = zseq lo k ++ [lo + Z.of_nat k].
Proof.
  revert lo. induction k as [|k IH]; intros lo.
  - simpl. now rewrite Z.add_0_r.
  - change (zseq lo (S (S k))) with (lo :: zseq (lo + 1) (S k)).
    rewrite IH. simpl. do 3 f_equal. lia.
Qed.

(** ** The bit-integer codec *)

Lemma size_bits v w : 0 <= w -> size (bits v w) = w.
Proof. intros H. unfold bits, size. rewrite length_map, length_zseq. lia. Qed.

Lemma Znth_bits v w j : 0 <= j < w -> Znth (bits v w) j = Z.b2z (Z.testbit v j).
Proof. intros H. unfold bits. rewrite Znth_zseq_map by lia. reflexivity. Qed.

Lemma bitvec_bits v w : bitvec (bits v w).
Proof.
  unfold bitvec, bits. apply Forall_forall. intros x Hx.
  apply in_map_iff in Hx. destruct Hx as (j & <- & _).
  destruct (Z.testbit v j); [now right | now left].
Qed.

Lemma b2z_range b : 0 <= Z.b2z b <= 1.
Proof. destruct b; simpl; lia. Qed.

Lemma wrap_small x : int_min <= x <= int_max -> wrap x = x.
Proof.
  unfold wrap, int_min, int_max. intros H.
  rewrite Z.mod_small; lia.
Qed.

Lemma testbit_above v j : 0 <= v < 2 ^ j -> 0 <= j -> Z.testbit v j = false.
Proof.
  intros Hv Hj. apply Z.testbit_false; [assumption|].
  rewrite Z.div_small by lia. reflexivity.
Qed.

(** The bit that [toBinary] stores at index [j]. *)
Lemma extract_bit i j :
  0 <= i <= int_max -> 0 <= j < 32 ->
  Z.shiftr (Z.land i (wrap (Z.shiftl 1 j))) j = Z.b2z (Z.testbit i j).
Proof.
  intros Hi Hj. rewrite Z.shiftl_1_l.
  destruct (Z.eq_dec j 31) as [->|Hne].
  - change (wrap (2 ^ 31)) with (Z.lnot (Z.ones 31)).
    rewrite <- Z.ldiff_land, Z.ldiff_ones_r by lia.
    rewrite (Z.shiftr_div_pow2 i 31) by lia.
    unfold int_max in Hi. rewrite Z.div_small by lia.
    rewrite Z.shiftl_0_l, Z.shiftr_0_l.
    rewrite testbit_above; [reflexivity | lia | lia].
  - assert (Hp : 0 < 2 ^ j < 2 ^ 31).
    { split; [apply Z.pow_pos_nonneg; lia | apply Z.pow_lt_mono_r; lia]. }
    rewrite wrap_small by (unfold int_min, int_max; lia).
    apply Z.bits_inj'. intros k Hk.
    rewrite Z.shiftr_spec, Z.land_spec, Z.pow2_bits_eqb by lia.
    destruct (Z.eqb_spec j (k + j)) as [E|E].
    + assert (k = 0) by lia. subst k. simpl (0 + j).
      rewrite andb_true_r. now rewrite Z.b2z_bit0.
    + rewrite andb_false_r.
      destruct (Z.testbit i j); simpl.
      * symmetry. change 1 with (2 ^ 0). rewrite Z.pow2_bits_eqb by lia.
        apply Z.eqb_neq. lia.
      * symmetry. apply Z.bits_0.
Qed.

Lemma toBinary_ok i N :
  0 <= i <= int_max -> 0 <= N <= 32 -> toBinary i N = Ret (bits i N).
Proof.
  intros Hi HN. unfold toBinary. rewrite make_ok by lia. simpl bind.
  destruct (for_loop_total
    (fun j out => size out = N /\
       forall k, 0 <= k < N ->
         Znth out k = if k <? j then Z.b2z (Z.testbit i k) else 0)
    0 N
    (fun j out => m <- shl 1 j ;; b <- shr (Z.land i m) j ;; set_at out j b)
    (repeat 0 (Z.to_nat N))) as (out & E & Hs & Hout).
  - lia.
  - split.
    + rewrite size_repeat. lia.
    + intros k Hk. rewrite Znth_repeat by lia.
      destruct (Z.ltb_spec k (Z.of_nat (Z.to_nat N))), (Z.ltb_spec k 0); (reflexivity || lia).
  - intros j out Hj [Hs Hout]. unfold shl, shr.
    destruct (Z.leb_spec 0 j), (Z.ltb_spec j 32); try lia. simpl.
    rewrite set_at_ok by lia. eexists. split; [reflexivity|].
    split; [rewrite size_upd; lia|].
    intros k Hk. rewrite Znth_upd by lia. rewrite extract_bit by lia.
    destruct (Z.eqb_spec k j) as [->|Hne].
    + destruct (Z.ltb_spec j (j + 1)); [reflexivity | lia].
    + rewrite Hout by lia.
      destruct (Z.ltb_spec k j), (Z.ltb_spec k (j + 1)); (reflexivity || lia).
  - rewrite E. f_equal. apply vi_ext.
    + rewrite size_bits; lia.
    + intros k Hk. rewrite Hout, Znth_bits by lia.
      destruct (Z.ltb_spec k N); [reflexivity | lia].
Qed.

Lemma mod_pow2_succ i j :
  0 <= j -> i mod 2 ^ (j + 1) = i mod 2 ^ j + Z.b2z (Z.testbit i j) * 2 ^ j.
Proof.
  intros Hj. rewrite Z.pow_add_r, Z.pow_1_r by lia.
  assert (0 < 2 ^ j) by (apply Z.pow_pos_nonneg; lia).
  rewrite Z.rem_mul_r by lia.
  rewrite Z.testbit_spec' by lia. lia.
Qed.

Lemma fromBinary_bits i N :
  0 <= i <= int_max -> 0 <= N <= 32 -> fromBinary (bits i N) N = Ret (i mod 2 ^ N).
Proof.
  intros Hi HN. unfold fromBinary.
  destruct (for_loop_total (fun j out => out = i mod 2 ^ j) 0 N
    (fun j out => b <- at_ (bits i N) j ;; t <- shl b j ;; add out t) 0)
    as (out & E & Hout).
  - lia.
  - now rewrite Z.pow_0_r, Z.mod_1_r.
  - intros j out Hj ->.
    rewrite at_ok by (rewrite size_bits; lia). simpl bind.
    rewrite Znth_bits by lia. unfold shl.
    destruct (Z.leb_spec 0 j), (Z.ltb_spec j 32); try lia. simpl bind.
    rewrite Z.shiftl_mul_pow2 by lia.
    assert (Hm : i mod 2 ^ (j + 1) <= i).
    { apply Z.mod_le; [lia | apply Z.pow_pos_nonneg; lia]. }
    assert (Hm0 : 0 <= i mod 2 ^ j).
    { apply Z.mod_pos_bound. apply Z.pow_pos_nonneg; lia. }
    pose proof (mod_pow2_succ i j ltac:(lia)) as Hsucc.
    assert (Hw : wrap (Z.b2z (Z.testbit i j) * 2 ^ j) = Z.b2z (Z.testbit i j) * 2 ^ j).
    { apply wrap_small. unfold int_min, int_max in *.
      assert (0 <= Z.b2z (Z.testbit i j) * 2 ^ j) by
        (apply Z.mul_nonneg_nonneg; [apply b2z_range | apply Z.pow_nonneg; lia]).
      lia. }
    rewrite Hw. unfold add.
    assert (0 <= Z.b2z (Z.testbit i j) * 2 ^ j) by
        (apply Z.mul_nonneg_nonneg; [apply b2z_range | apply Z.pow_nonneg; lia]).
    unfold int_min, int_max in *.
    destruct (Z.leb_spec (- 2 ^ 31) (i mod 2 ^ j + Z.b2z (Z.testbit i j) * 2 ^ j)),
             (Z.leb_spec (i mod 2 ^ j + Z.b2z (Z.testbit i j) * 2 ^ j) (2 ^ 31 - 1));
      try lia.
    simpl. eexists. split; [reflexivity | lia].
  - rewrite E. now subst out.
Qed.

(** ** The period analyser *)

Lemma lcp_bounds u v : 0 <= lcp u v /\ lcp u v <= size u /\ lcp u v <= size v.
Proof.
  revert v. induction u as [|x u IH]; intros v.
  - simpl. pose proof (size_nonneg v). rewrite size_nil. lia.
  - pose proof (size_nonneg u). destruct v as [|y v]; cbn [lcp].
    + rewrite size_nil, size_cons. lia.
    + pose proof (size_nonneg v). rewrite !size_cons.
      destruct (x =? y); [specialize (IH v) |]; lia.
Qed.

Lemma lcp_prefix u v j : 0 <= j < lcp u v -> Znth u j = Znth v j.
Proof.
  revert v j. induction u as [|x u IH]; intros [|y v] j; cbn [lcp]; try lia.
  destruct (Z.eqb_spec x y) as [->|Hne]; [|lia].
  intros Hj. rewrite !Znth_cons by lia.
  destruct (Z.eqb_spec j 0); [reflexivity|]. apply IH. lia.
Qed.

Lemma lcp_mismatch u v :
  lcp u v < size u -> lcp u v < size v -> Znth u (lcp u v) <> Znth v (lcp u v).
Proof.
  revert v. induction u as [|x u IH]; intros [|y v]; cbn [lcp];
    rewrite ?size_nil, ?size_cons; try lia.
  destruct (Z.eqb_spec x y) as [->|Hne].
  - intros H1 H2. pose proof (lcp_bounds u v).
    rewrite !Znth_cons by lia.
    destruct (Z.eqb_spec (1 + lcp u v) 0); [lia|].
    replace (1 + lcp u v - 1) with (lcp u v) by lia. apply IH; lia.
  - intros _ _. exact Hne.
Qed.

Lemma lcp_at_Zarray s i : 0 <= i <= size s -> lcp_at s i (Zarray s i).
Proof.
  intros Hi. unfold lcp_at, Zarray.
  pose proof (lcp_bounds s (skipn (Z.to_nat i) s)) as (H0 & H1 & H2).
  rewrite size_skipn in H2.
  repeat split; try lia.
  - intros j Hj. rewrite (lcp_prefix _ _ j Hj), Znth_skipn by lia. f_equal. lia.
  - intros Hlt Heq.
    apply (lcp_mismatch s (skipn (Z.to_nat i) s)); [lia | rewrite size_skipn; lia |].
    rewrite Heq, Znth_skipn by lia. f_equal. lia.
Qed.

Lemma lcp_at_unique s i k k' : lcp_at s i k -> lcp_at s i k' -> k = k'.
Proof.
  intros (H0 & H1 & H2 & H3) (H0' & H1' & H2' & H3').
  destruct (Z.lt_trichotomy k k') as [Hlt | [Heq | Hgt]]; [| assumption |].
  - exfalso. apply H3; [lia|]. apply H2'. lia.
  - exfalso. apply H3'; [lia|]. apply H2. lia.
Qed.

Lemma extend_ok s n L fuel : n = size s ->
  forall R, 0 <= L <= R -> R <= n -> (Z.to_nat (n - R) <= fuel)%nat ->
    (forall j, L <= j < R -> Znth s (j - L) = Znth s j) ->
    exists R', extend fuel s n L R = Ret R' /\ R <= R' <= n /\
      (forall j, L <= j < R' -> Znth s (j - L) = Znth s j) /\
      (R' < n -> Znth s (R' - L) <> Znth s R').
Proof.
  intros ->. induction fuel as [|f IH]; intros R HL HR Hfuel Hpre.
  - assert (R = size s) by lia. subst R. simpl.
    rewrite Z.ltb_irrefl. exists (size s). repeat split; auto; lia.
  - simpl. destruct (Z.ltb_spec R (size s)) as [Hlt|Hge].
    + rewrite !at_ok by lia. simpl bind.
      destruct (Z.eqb_spec (Znth s (R - L)) (Znth s R)) as [Heq|Hne].
      * destruct (IH (R + 1)) as (R' & E & HR' & Hm & Hmis); try lia.
        { intros j Hj. destruct (Z.eq_dec j R) as [->|]; [assumption | apply Hpre; lia]. }
        exists R'. repeat split; auto; lia.
      * exists R. repeat split; auto; lia.
    + exists R. repeat split; auto; lia.
Qed.

Lemma Zinv_init s : 1 <= size s ->
  Zinv s 1 (mkZ (repeat 0 (Z.to_nat (size s))) 0 0).
Proof.
  intros Hn. unfold Zinv. cbn [zv zL zR].
  split; [rewrite size_repeat; lia|].
  split; [intros m Hm; lia|].
  split.
  { intros m Hm. rewrite Znth_repeat by lia.
    destruct (Z.ltb_spec (m - 1) (Z.of_nat (Z.to_nat (size s)))); reflexivity. }
  repeat (split; [lia|]).
  intros j Hj. f_equal. lia.
Qed.

Lemma Znth_upd_same v i x : 0 <= i < size v -> Znth (upd v i x) i = x.
Proof. intros H. rewrite Znth_upd by lia. now rewrite Z.eqb_refl. Qed.

Lemma Znth_upd_other v i x k :
  0 <= i < size v -> 0 <= k -> k <> i -> Znth (upd v i x) k = Znth v k.
Proof.
  intros H Hk Hne. rewrite Znth_upd by lia.
  destruct (Z.eqb_spec k i); [contradiction | reflexivity].
Qed.

(** Storing the exact entry for [i] extends the first two parts of the
    invariant. *)
Lemma Zinv_store s i z x :
  size z = size s -> 1 <= i < size s ->
  (forall m, 1 <= m < i -> lcp_at s m (Znth z (m - 1))) ->
  (forall m, i <= m <= size s -> Znth z (m - 1) = 0) ->
  lcp_at s i x ->
  size (upd z (i - 1) x) = size s /\
  (forall m, 1 <= m < i + 1 -> lcp_at s m (Znth (upd z (i - 1) x) (m - 1))) /\
  (forall m, i + 1 <= m <= size s -> Znth (upd z (i - 1) x) (m - 1) = 0).
Proof.
  intros Hs Hi Hz H0 Hx.
  split; [rewrite size_upd; lia|]. split.
  - intros m Hm. destruct (Z.eq_dec m i) as [->|Hne].
    + rewrite Znth_upd_same by lia. assumption.
    + rewrite Znth_upd_other by lia. apply Hz. lia.
  - intros m Hm. rewrite Znth_upd_other by lia. apply H0. lia.
Qed.

(** What a completed window match [R'] at start [i] gives. *)
Lemma Zinv_after_extend s i st R' :
  Zinv s i st -> 1 <= i < size s -> i <= R' <= size s ->
  (forall j, i <= j < R' -> Znth s (j - i) = Znth s j) ->
  (R' < size s -> Znth s (R' - i) <> Znth s R') ->
  Zinv s (i + 1) (mkZ (upd (zv st) (i - 1) (R' - i)) i (R' - 1)).
Proof.
  intros (Hs & Hz & H0 & HL & HLR & HR & HL0 & Hbox) Hi HR' Hm Hmis.
  assert (Hx : lcp_at s i (R' - i)).
  { unfold lcp_at. split; [lia|]. split; [lia|]. split.
    - intros j Hj. replace j with (i + j - i) at 1 by lia. apply Hm. lia.
    - replace (i + (R' - i)) with R' by lia. exact Hmis. }
  destruct (Zinv_store s i (zv st) (R' - i) Hs Hi Hz H0 Hx) as (A & B & C).
  unfold Zinv. cbn [zv zL zR].
  split; [exact A|]. split; [exact B|]. split; [exact C|].
  repeat (split; [lia|]).
  intros j Hj. symmetry. apply Hm. lia.
Qed.

Lemma ComputeZ_body_ok s i st :
  Zinv s i st -> 1 <= i < size s ->
  exists st', ComputeZ_body s (size s) i st = Ret st' /\ Zinv s (i + 1) st'.
Proof.
  intros Hinv Hi.
  pose proof Hinv as (Hs & Hz & H0 & HL & HLR & HR & HL0 & Hbox).
  unfold ComputeZ_body.
  destruct (Z.ltb_spec (zR st) i) as [Hlt|Hge].
  - destruct (extend_ok s (size s) i (Z.to_nat (size s)) eq_refl i)
      as (R' & E & HR' & Hm & Hmis); try lia.
    rewrite E. cbn [bind]. rewrite set_at_ok by lia. cbn [bind].
    eexists. split; [reflexivity|].
    apply Zinv_after_extend; auto; lia.
  - assert (HL1 : 1 <= zL st) by lia.
    set (k := i - zL st).
    assert (Hk : 1 <= k < i) by (unfold k; lia).
    rewrite at_ok by lia. cbn [bind].
    destruct (Hz k Hk) as (Hk0 & Hk1 & Hk2 & Hk3).
    set (zk := Znth (zv st) (k - 1)) in *.
    destruct (Z.ltb_spec zk (zR st - i + 1)) as [Hin|Hout].
    + rewrite set_at_ok by lia. cbn [bind].
      eexists. split; [reflexivity|].
      assert (Hx : lcp_at s i zk).
      { unfold lcp_at. split; [lia|]. split; [lia|]. split.
        - intros j Hj. rewrite (Hbox (i + j)) by lia.
          rewrite Hk2 by lia. f_equal. unfold k. lia.
        - intros Hlt. rewrite (Hbox (i + zk)) by lia.
          replace (i + zk - zL st) with (k + zk) by (unfold k; lia).
          apply Hk3. unfold k. lia. }
      destruct (Zinv_store s i (zv st) zk Hs Hi Hz H0 Hx) as (A & B & C).
      unfold Zinv. cbn [zv zL zR].
      split; [exact A|]. split; [exact B|]. split; [exact C|].
      repeat (split; [lia|]).
      exact Hbox.
    + destruct (extend_ok s (size s) i (Z.to_nat (size s)) eq_refl (zR st))
        as (R' & E & HR' & Hm & Hmis); try lia.
      { intros j Hj. rewrite (Hbox j) by lia.
        rewrite Hk2 by lia. f_equal. unfold k. lia. }
      rewrite E. cbn [bind]. rewrite set_at_ok by lia. cbn [bind].
      eexists. split; [reflexivity|].
      apply Zinv_after_extend; auto; lia.
Qed.

(** [ComputeZ] returns on every input, and what it stores at index [i-1]
    is the Z-array entry [i]; the last cell is never written. *)
Lemma ComputeZ_ok s :
  exists z, ComputeZ s = Ret z /\ size z = size s /\
    (forall i, 1 <= i < size s -> Znth z (i - 1) = Zarray s i) /\
    (1 <= size s -> Znth z (size s - 1) = 0).
Proof.
  unfold ComputeZ. rewrite make_ok by apply size_nonneg. simpl bind.
  destruct (Z.le_gt_cases 1 (size s)) as [Hn|Hn].
  - destruct (for_loop_total (Zinv s) 1 (size s) (ComputeZ_body s (size s))
                (mkZ (repeat 0 (Z.to_nat (size s))) 0 0)) as (st & E & Hinv).
    + assumption.
    + now apply Zinv_init.
    + intros j st Hj Hinv. now apply ComputeZ_body_ok.
    + rewrite E. simpl bind. exists (zv st).
      destruct Hinv as (Hs & Hz & H0 & _).
      repeat split; auto.
      * intros i Hi. apply (lcp_at_unique s i); [apply Hz; lia | apply lcp_at_Zarray; lia].
      * intros _. apply H0. lia.
  - rewrite for_loop_empty by lia. simpl bind. eexists. split; [reflexivity|].
    simpl. rewrite size_repeat. repeat split; try lia.
    pose proof (size_nonneg s). lia.
Qed.

Lemma Zarray_end s : Zarray s (size s) = 0.
Proof.
  unfold Zarray, size. rewrite Nat2Z.id, skipn_all.
  destruct s; reflexivity.
Qed.

Lemma ComputePeriods_ok s : ComputePeriods s = Ret (periods_spec s).
Proof.
  unfold ComputePeriods.
  destruct (ComputeZ_ok s) as (z & E & Hs & Hz & Hlast). rewrite E. cbn [bind].
  set (f := fun p => p + Zarray s p =? size s).
  destruct (for_loop_total
    (fun i ps => ps = filter f (zseq 1 (Z.to_nat (i - 1))))
    1 (size s + 1)
    (fun i periods =>
       zi <- at_ z (i - 1) ;;
       if i + zi =? size s then Ret (periods ++ [i]) else Ret periods)
    []) as (ps & Eps & Hps).
  - pose proof (size_nonneg s). lia.
  - reflexivity.
  - intros i ps Hi ->. rewrite at_ok by lia. cbn [bind].
    assert (Hzi : Znth z (i - 1) = Zarray s i).
    { destruct (Z.eq_dec i (size s)) as [->|Hne].
      - rewrite Zarray_end. apply Hlast. lia.
      - apply Hz. lia. }
    rewrite Hzi.
    replace (Z.to_nat (i + 1 - 1)) with (S (Z.to_nat (i - 1))) by lia.
    rewrite zseq_snoc, filter_app. cbn [filter].
    replace (1 + Z.of_nat (Z.to_nat (i - 1))) with i by lia.
    change (f i) with (i + Zarray s i =? size s).
    destruct (i + Zarray s i =? size s); eexists; split; try reflexivity.
    now rewrite app_nil_r.
  - rewrite Eps, Hps. unfold periods_spec. do 3 f_equal. unfold size. lia.
Qed.

Lemma In_periods_spec s q :
  In q (periods_spec s) <-> 1 <= q <= size s /\ q + Zarray s q = size s.
Proof.
  unfold periods_spec. rewrite filter_In, In_zseq, Z.eqb_eq. unfold size. lia.
Qed.

Lemma zseq_sorted lo k : StronglySorted Z.lt (zseq lo k).
Proof.
  revert lo. induction k as [|k IH]; intros lo; simpl; constructor.
  - apply IH.
  - apply Forall_forall. intros x Hx. apply In_zseq in Hx. lia.
Qed.

Lemma filter_sorted (f : Z -> bool) v :
  StronglySorted Z.lt v -> StronglySorted Z.lt (filter f v).
Proof.
  induction 1 as [|a v Hs IH Ha]; simpl; [constructor|].
  destruct (f a); [|assumption].
  constructor; [assumption|].
  apply Forall_forall. intros x Hx. apply filter_In in Hx.
  rewrite Forall_forall in Ha. apply Ha. tauto.
Qed.

Lemma periods_spec_sorted s : StronglySorted Z.lt (periods_spec s).
Proof. apply filter_sorted, zseq_sorted. Qed.

Lemma periods_spec_last s : s <> [] ->
  exists front, periods_spec s = front ++ [size s].
Proof.
  intros Hne. unfold periods_spec.
  destruct (length s) as [|k] eqn:Hlen.
  - destruct s; [contradiction | discriminate].
  - rewrite zseq_snoc, filter_app. cbn [filter].
    replace (1 + Z.of_nat k) with (size s) by (unfold size; lia).
    rewrite Zarray_end, Z.add_0_r, Z.eqb_refl. eauto.
Qed.

(** The entries of the period list are the periods of [s]. *)
Lemma periods_spec_is_period s q : In q (periods_spec s) <-> is_period s q.
Proof.
  rewrite In_periods_spec. unfold is_period. split.
  - intros [Hq Hz]. split; [assumption|]. intros j Hj Hlt.
    destruct (lcp_at_Zarray s q ltac:(lia)) as (_ & _ & Hpre & _).
    rewrite Hpre by lia. f_equal. lia.
  - intros [Hq Hper]. split; [assumption|].
    assert (H : lcp_at s q (size s - q)).
    { unfold lcp_at. split; [lia|]. split; [lia|]. split.
      - intros j Hj. rewrite Hper by lia. f_equal. lia.
      - lia. }
    pose proof (lcp_at_unique s q _ _ H (lcp_at_Zarray s q ltac:(lia))). lia.
Qed.

Lemma fold_min_spec r x :
  (fold_left Z.min r x = x \/ In (fold_left Z.min r x) r) /\
  fold_left Z.min r x <= x /\ forall y, In y r -> fold_left Z.min r x <= y.
Proof.
  revert x. induction r as [|a r IH]; intros x; cbn [fold_left].
  - split; [now left|]. split; [lia|]. intros y [].
  - destruct (IH (Z.min x a)) as (Hin & Hle & Hall).
    split; [|split].
    + destruct Hin as [Hin|Hin].
      * rewrite Hin. destruct (Z.min_spec x a) as [[_ ->]|[_ ->]]; [now left | right; now left].
      * right. now right.
    + lia.
    + intros y [<-|Hy]; [lia | now apply Hall].
Qed.

Lemma min_element_spec v m :
  min_element v = Ret m <-> In m v /\ forall y, In y v -> m <= y.
Proof.
  destruct v as [|x r]; cbn [min_element].
  - split; [discriminate | intros [[] _]].
  - destruct (fold_min_spec r x) as (Hin & Hle & Hall). split.
    + intros [= <-]. split.
      * destruct Hin as [->|Hin]; [now left | now right].
      * intros y [<-|Hy]; [assumption | now apply Hall].
    + intros [Hm Hmin]. f_equal. apply Z.le_antisymm.
      * destruct Hm as [<-|Hm]; [assumption | now apply Hall].
      * apply Hmin. destruct Hin as [->|Hin]; [now left | now right].
Qed.

(** On a non-empty vector [ComputeMinPeriod] returns its least period. *)
Lemma ComputeMinPeriod_ok s : s <> [] ->
  exists q, ComputeMinPeriod s = Ret q /\ is_period s q /\
            forall q', is_period s q' -> q <= q'.
Proof.
  intros Hne. unfold ComputeMinPeriod. rewrite ComputePeriods_ok. cbn [bind].
  destruct (periods_spec_last s Hne) as (front & Hfront).
  destruct (min_element (periods_spec s)) as [q| | |] eqn:E.
  - exists q. split; [reflexivity|]. apply min_element_spec in E.
    destruct E as [Hin Hmin]. split.
    + now apply periods_spec_is_period.
    + intros q' Hq'. apply Hmin. now apply periods_spec_is_period.
  - rewrite Hfront in E. destruct front; discriminate.
  - rewrite Hfront in E. destruct front; discriminate.
  - rewrite Hfront in E. destruct front; discriminate.
Qed.

Lemma ComputeMinPeriod_inv s q :
  ComputeMinPeriod s = Ret q ->
  is_period s q /\ forall q', is_period s q' -> q <= q'.
Proof.
  intros H. destruct s as [|x s]; [discriminate|].
  destruct (ComputeMinPeriod_ok (x :: s)) as (q0 & E & Hp & Hmin); [discriminate|].
  rewrite E in H. injection H as <-. auto.
Qed.

(** ** One correction and its inverse *)

Lemma range_app_r u v : range (u ++ v) (size u) (size u + size v) = Ret v.
Proof.
  pose proof (size_nonneg u). pose proof (size_nonneg v).
  rewrite range_ok by (rewrite ?size_app; lia). f_equal.
  replace (Z.to_nat (size u + size v - size u)) with (length v) by (unfold size; lia).
  replace (Z.to_nat (size u)) with (length u) by (unfold size; lia).
  rewrite skipn_app, skipn_all, Nat.sub_diag. simpl. apply firstn_all.
Qed.

Lemma erase_app_r u v : erase (u ++ v) (size u) (size u + size v) = Ret u.
Proof.
  pose proof (size_nonneg u). pose proof (size_nonneg v).
  rewrite erase_ok by (rewrite ?size_app; lia). f_equal.
  replace (Z.to_nat (size u + size v)) with (length (u ++ v))
    by (rewrite length_app; unfold size; lia).
  replace (Z.to_nat (size u)) with (length u) by (unfold size; lia).
  rewrite skipn_all, app_nil_r, firstn_app, firstn_all, Nat.sub_diag. simpl.
  apply app_nil_r.
Qed.

Lemma scan_back_ok v t fuel : forall j,
  0 <= t <= j -> j < size v -> Znth v t <> 0 ->
  (forall k, t < k <= j -> Znth v k = 0) ->
  (Z.to_nat (j - t) <= fuel)%nat ->
  scan_back fuel v j = Ret t.
Proof.
  induction fuel as [|f IH]; intros j Ht Hj Hnz Hz Hfuel; cbn [scan_back];
    rewrite at_ok by lia; cbn [bind].
  - assert (j = t) by lia. subst j.
    destruct (Z.eqb_spec (Znth v t) 0); [contradiction | reflexivity].
  - destruct (Z.eq_dec j t) as [->|Hne].
    + destruct (Z.eqb_spec (Znth v t) 0); [contradiction | reflexivity].
    + rewrite (Hz j) by lia. rewrite Z.eqb_refl.
      apply IH; try lia; auto. intros k Hk. apply Hz. lia.
Qed.

Section Collapsed.
Variables l p i q : Z.
Variable w : vi.
Hypothesis Hi : 0 <= i.
Hypothesis Hq : 1 <= q < p.
Hypothesis Hpl : p <= l.
Hypothesis Hw : i + l <= size w.

Lemma size_collapsed : size (collapsed l p i q w) = size w - (l - p).
Proof.
  unfold collapsed.
  rewrite size_app, size_cons, size_app, size_firstn, size_repeat, size_skipn. lia.
Qed.

Lemma Znth_collapsed k : 0 <= k ->
  Znth (collapsed l p i q w) k =
    if k <? i + q then Znth w k
    else if k =? i + q then 1
    else if k <? i + p then 0
    else Znth w (k + (l - p)).
Proof.
  intros Hk. unfold collapsed.
  rewrite Znth_app, size_firstn by lia.
  replace (Z.min (Z.of_nat (Z.to_nat (i + q))) (size w)) with (i + q) by lia.
  destruct (Z.ltb_spec k (i + q)).
  - apply Znth_firstn. lia.
  - rewrite Znth_cons by lia.
    destruct (Z.eqb_spec (k - (i + q)) 0), (Z.eqb_spec k (i + q)); try lia.
    rewrite Znth_app, size_repeat by lia.
    destruct (Z.ltb_spec (k - (i + q) - 1) (Z.of_nat (Z.to_nat (p - q - 1)))),
             (Z.ltb_spec k (i + p)); try lia.
    + rewrite Znth_repeat by lia.
      destruct (Z.ltb_spec (k - (i + q) - 1) (Z.of_nat (Z.to_nat (p - q - 1))));
        [reflexivity | lia].
    + rewrite Znth_skipn by lia. f_equal. lia.
Qed.

(** The three mutations of the repair produce [collapsed]. *)
Lemma repair_eq lg bs :
  toBinary i lg = Ret bs ->
  repair l p lg i q w = Ret ((collapsed l p i q w ++ bs) ++ [0]).
Proof.
  intros Hbs. unfold repair.
  destruct (erase w (i + p) (i + l)) as [w1| | |] eqn:E1;
    try (rewrite erase_ok in E1 by lia; discriminate).
  apply erase_inv in E1. destruct E1 as (_ & _ & Hs1 & Hn1). cbn [bind].
  rewrite set_at_ok by lia. cbn [bind].
  destruct (for_loop_total
    (fun j v => size v = size w1 /\
       forall k, 0 <= k ->
         Znth v k = if (i + q <? k) && (k <? j) then 0
                    else Znth (upd w1 (i + q) 1) k)
    (i + q + 1) (i + p) (fun j out => set_at out j 0) (upd w1 (i + q) 1))
    as (w3 & E3 & Hs3 & Hn3).
  - lia.
  - split; [apply size_upd; lia|]. intros k Hk.
    destruct (Z.ltb_spec (i + q) k), (Z.ltb_spec k (i + q + 1)); try lia; reflexivity.
  - intros j v Hj [Hsv Hnv]. rewrite set_at_ok by lia.
    eexists. split; [reflexivity|]. split; [rewrite size_upd; lia|].
    intros k Hk. rewrite Znth_upd by lia.
    destruct (Z.eqb_spec k j) as [->|Hne].
    + destruct (Z.ltb_spec (i + q) j), (Z.ltb_spec j (j + 1)); try lia; reflexivity.
    + rewrite Hnv by lia.
      destruct (Z.ltb_spec (i + q) k), (Z.ltb_spec k j), (Z.ltb_spec k (j + 1));
        try lia; reflexivity.
  - rewrite E3. cbn [bind]. rewrite Hbs. cbn [bind]. do 3 f_equal.
    apply vi_ext.
    + rewrite size_collapsed. lia.
    + intros k Hk. rewrite Hn3, Znth_collapsed, Znth_upd, Hn1 by lia.
      destruct (Z.ltb_spec (i + q) k), (Z.ltb_spec k (i + p)), (Z.eqb_spec k (i + q)),
               (Z.ltb_spec k (i + q)); try lia; cbn [andb]; try reflexivity.
      f_equal. lia.
Qed.
End Collapsed.

Lemma repair_Ret_inv l p lg i q w w' :
  repair l p lg i q w = Ret w' -> 0 <= i + p <= i + l /\ i + l <= size w.
Proof.
  unfold repair. intros H. bind_inv H. apply erase_inv in E. lia.
Qed.

Lemma log2_up_bounds n : 1 <= n <= int_max ->
  0 <= Z.log2_up n <= 31 /\ n <= 2 ^ Z.log2_up n.
Proof.
  intros Hn. unfold int_max in Hn. split; [split|].
  - apply Z.log2_up_nonneg.
  - destruct (Z.eq_dec n 1) as [->|Hne]; [change (Z.log2_up 1) with 0; lia|].
    apply Z.log2_up_le_pow2; lia.
  - destruct (Z.eq_dec n 1) as [->|Hne]; [change (Z.log2_up 1) with 0; lia|].
    apply Z.log2_up_spec. lia.
Qed.

Section Unwind.
Variables n l p lg i q : Z.
Variable w : vi.
Hypothesis Hsize : size w = n + 1.
Hypothesis Hi : 0 <= i.
Hypothesis Hq : 1 <= q < p.
Hypothesis Hl : l - p = lg + 1.
Hypothesis Hlg : 0 <= lg <= 32.
Hypothesis Hw : i + l <= n + 1.
Hypothesis Hi2 : i < 2 ^ lg.
Hypothesis Himax : i <= int_max.
Hypothesis Hper : forall t, i + q <= t < i + l -> Znth w (t - q) = Znth w t.

Let X := collapsed l p i q w.

Lemma size_X : size X = n - lg.
Proof. unfold X. rewrite size_collapsed; lia. Qed.

Lemma Znth_X k : 0 <= k ->
  Znth X k = if k <? i + q then Znth w k
             else if k =? i + q then 1
             else if k <? i + p then 0
             else Znth w (k + (l - p)).
Proof. intros Hk. unfold X. apply Znth_collapsed; lia. Qed.

(** The decoder's copy loop rebuilds the window from its first period. *)
Lemma unwind_copy u :
  size u = n + 1 ->
  (forall k, 0 <= k < n + 1 -> k < i + q \/ i + l <= k -> Znth u k = Znth w k) ->
  for_loop (i + q) (i + l)
    (fun t v => x <- at_ v (t - q) ;; set_at v t x) u = Ret w.
Proof.
  intros Hsu Hu.
  destruct (for_loop_total
    (fun t v => size v = n + 1 /\
       forall k, 0 <= k < n + 1 -> k < t \/ i + l <= k -> Znth v k = Znth w k)
    (i + q) (i + l)
    (fun t v => x <- at_ v (t - q) ;; set_at v t x) u) as (v & E & Hsv & Hv).
  - lia.
  - auto.
  - intros t v Ht [Hsv Hv].
    rewrite at_ok by lia. cbn [bind]. rewrite set_at_ok by lia.
    eexists. split; [reflexivity|]. split; [rewrite size_upd; lia|].
    intros k Hk Hor. rewrite Znth_upd by lia.
    destruct (Z.eqb_spec k t) as [->|Hne].
    + rewrite Hv by lia. apply Hper. lia.
    + apply Hv; lia.
  - rewrite E. f_equal. apply vi_ext; [lia|].
    intros k Hk. apply Hv; lia.
Qed.

(** [unwind] undoes the repair of the window at [i]. *)
Lemma unwind_repaired :
  unwind n l p lg ((X ++ bits i lg) ++ [0]) = Ret (w, mkEntry i (i + q) 1).
Proof.
  unfold unwind. rewrite erase_last_app. cbn [bind].
  pose proof size_X as HsX.
  assert (Hsb : size (bits i lg) = lg) by (apply size_bits; lia).
  assert (Hsz : size (X ++ bits i lg) = size X + size (bits i lg))
    by apply size_app.
  replace (size (X ++ bits i lg) - lg) with (size X) by lia.
  rewrite Hsz, range_app_r. cbn [bind].
  rewrite fromBinary_bits by lia. cbn [bind].
  rewrite Z.mod_small by lia.
  rewrite erase_app_r. cbn [bind].
  rewrite (scan_back_ok X (i + q)).
  - cbn [bind].
    replace (nth (Z.to_nat (i + q)) X 0) with (Znth X (i + q)) by reflexivity.
    rewrite Znth_X by lia.
    destruct (Z.ltb_spec (i + q) (i + q)); [lia|]. rewrite Z.eqb_refl.
    destruct (insert_n X (i + p) (l - p) 0) as [u| | |] eqn:Eu;
      try (rewrite insert_n_ok in Eu by lia; discriminate).
    apply insert_n_inv in Eu. destruct Eu as (_ & _ & Hsu & Hu). cbn [bind].
    replace (i + q - i) with q by lia.
    rewrite unwind_copy.
    + cbn [bind]. rewrite Hsize, Z.eqb_refl. reflexivity.
    + lia.
    + intros k Hk Hor. rewrite Hu by lia.
      destruct (Z.ltb_spec k (i + p)), (Z.ltb_spec k (i + p + (l - p))); try lia.
      * rewrite Znth_X by lia.
        destruct (Z.ltb_spec k (i + q)); [reflexivity | lia].
      * rewrite Znth_X by lia.
        destruct (Z.ltb_spec (k - (l - p)) (i + q)),
                 (Z.eqb_spec (k - (l - p)) (i + q)),
                 (Z.ltb_spec (k - (l - p)) (i + p)); try lia.
        f_equal. lia.
  - lia.
  - lia.
  - rewrite Znth_X by lia.
    destruct (Z.ltb_spec (i + q) (i + q)); [lia|]. rewrite Z.eqb_refl. lia.
  - intros k Hk. rewrite Znth_X by lia.
    destruct (Z.ltb_spec k (i + q)), (Z.eqb_spec k (i + q)), (Z.ltb_spec k (i + p));
      try lia; reflexivity.
  - lia.
Qed.
End Unwind.

(** ** Chains of corrections *)

Section Coder.
Variables n l p : Z.
Hypothesis Hn : 1 <= n.
Hypothesis Hint : n + 1 <= int_max.

Let lg := Z.log2_up n.

Lemma lg_bounds : 0 <= lg <= 31 /\ n <= 2 ^ lg.
Proof. apply log2_up_bounds. lia. Qed.

Lemma corr_inv w w' i q :
  size w = n + 1 -> corr n l p lg w w' i q ->
  0 <= i /\ i + l <= n + 1 /\ 1 <= q < p /\ l - p = lg + 1 /\
  (forall t, i + q <= t < i + l -> Znth w (t - q) = Znth w t) /\
  w' = (collapsed l p i q w ++ bits i lg) ++ [0].
Proof.
  intros Hs (Hi & win & Er & Em & Hqp & Ec).
  pose proof lg_bounds as [Hlg Hpow].
  apply range_inv in Er. destruct Er as (Hr1 & Hr2 & Hsw & Hwin).
  apply ComputeMinPeriod_inv in Em. destruct Em as [[Hq Hper] _].
  unfold correct in Ec. bind_inv Ec.
  destruct (Z.eqb_spec (size a) (n + 1)) as [Hsa|]; [|discriminate].
  injection Ec as <-.
  pose proof (repair_Ret_inv _ _ _ _ _ _ _ E) as [Hpl _].
  assert (Hbs : toBinary i lg = Ret (bits i lg)) by (apply toBinary_ok; lia).
  rewrite (repair_eq l p i q w) with (bs := bits i lg) in E by (auto; lia).
  injection E as <-.
  rewrite !size_app, size_collapsed, size_bits, size_cons, size_nil in Hsa by lia.
  repeat (split; [lia|]). split; [|reflexivity].
  intros t Ht.
  replace (t - q) with (i + (t - q - i)) by lia. rewrite <- Hwin by lia.
  rewrite Hper by lia.
  rewrite Hwin by lia. f_equal. lia.
Qed.

Lemma corr_undo w w' i q :
  size w = n + 1 -> corr n l p lg w w' i q ->
  unwind n l p lg w' = Ret (w, mkEntry i (i + q) 1) /\
  at_ w' n = Ret 0 /\ size w' = n + 1.
Proof.
  intros Hs Hc.
  destruct (corr_inv w w' i q Hs Hc) as (Hi & Hw & Hq & Hl & Hper & ->).
  pose proof lg_bounds as [Hlg Hpow].
  assert (Hsz : size (collapsed l p i q w ++ bits i lg) = n).
  { rewrite size_app, size_collapsed, size_bits by lia. lia. }
  split; [|split].
  - apply unwind_repaired; try lia; auto.
  - rewrite at_ok by (rewrite size_app, size_cons, size_nil; lia).
    rewrite Znth_app by lia.
    destruct (Z.ltb_spec n (size (collapsed l p i q w ++ bits i lg))); [lia|].
    rewrite Hsz, Z.sub_diag. reflexivity.
  - rewrite size_app, size_cons, size_nil. lia.
Qed.

Lemma corr_bitvec w w' i q :
  size w = n + 1 -> corr n l p lg w w' i q -> bitvec w -> bitvec w'.
Proof.
  intros Hs Hc Hb.
  destruct (corr_inv w w' i q Hs Hc) as (Hi & Hw & Hq & Hl & Hper & ->).
  assert (Hparts : forall k, bitvec (firstn k w) /\ bitvec (skipn k w)).
  { intros k. apply Forall_app. now rewrite firstn_skipn. }
  unfold bitvec, collapsed in *.
  repeat (apply Forall_app; split).
  - apply Hparts.
  - constructor; [now right|]. apply Forall_app; split.
    + apply Forall_forall. intros x Hx. apply repeat_spec in Hx. now left.
    + apply Hparts.
  - apply bitvec_bits.
  - constructor; [now left | constructor].
Qed.

Lemma chain_size k w v : size w = n + 1 -> chain n l p lg k w v -> size v = n + 1.
Proof.
  intros Hs Hc. induction Hc as [w|k w v v' i q Hc IH Hcorr]; [assumption|].
  apply (corr_undo v v' i q); auto.
Qed.

Lemma chain_bitvec k w v :
  size w = n + 1 -> bitvec w -> chain n l p lg k w v -> bitvec v.
Proof.
  intros Hs Hb Hc. induction Hc as [w|k w v v' i q Hc IH Hcorr]; [assumption|].
  apply (corr_bitvec v v' i q); auto. now apply (chain_size k w).
Qed.

Lemma chain_app k j w v v' :
  chain n l p lg k w v -> chain n l p lg j v v' -> chain n l p lg (k + j) w v'.
Proof.
  intros H1 H2. induction H2 as [v|j v u u' i q H2 IH Hcorr].
  - now rewrite Nat.add_0_r.
  - rewrite Nat.add_succ_r. eapply chain_step; eauto.
Qed.

(** [decode_loop] walks a chain backwards and stops at its origin. *)
Lemma decode_chain k w v b :
  size w = n + 1 -> at_ w n = Ret b -> b <> 0 ->
  chain n l p lg k w v ->
  forall extra log, exists es,
    decode_loop (S k + extra) n l p lg v log = Ret (w, log ++ es) /\
    length es = k /\ Forall (scan_ok p) es.
Proof.
  intros Hs Hb Hnz Hc.
  induction Hc as [w|k w v v' i q Hc IH Hcorr]; intros extra log.
  - exists []. cbn [decode_loop Nat.add]. rewrite Hb. cbn [bind].
    destruct (Z.eqb_spec b 0); [contradiction|].
    rewrite app_nil_r. auto.
  - pose proof (chain_size k w v Hs Hc) as Hsv.
    destruct (corr_undo v v' i q Hsv Hcorr) as (Hu & Hat & Hsv').
    destruct (corr_inv v v' i q Hsv Hcorr) as (Hi & Hw & Hq & _).
    destruct (IH Hs Hb extra (log ++ [mkEntry i (i + q) 1])) as (es & E & Hlen & Hok).
    exists (mkEntry i (i + q) 1 :: es).
    change (S (S k) + extra)%nat with (S (S k + extra)).
    cbn [decode_loop]. rewrite Hat. cbn [bind]. rewrite Z.eqb_refl.
    rewrite Hu. cbn [bind]. rewrite E.
    split; [now rewrite <- app_assoc|]. split; [simpl; lia|].
    constructor; [|assumption].
    unfold scan_ok. cbn [e_index e_stop e_bit]. lia.
Qed.

(** The number of corrections that lead to a vector is determined by
    the vector. *)
Lemma chain_depth k k' w w' v b b' :
  size w = n + 1 -> at_ w n = Ret b -> b <> 0 ->
  size w' = n + 1 -> at_ w' n = Ret b' -> b' <> 0 ->
  chain n l p lg k w v -> chain n l p lg k' w' v -> k = k'.
Proof.
  intros Hs Hb Hnz Hs' Hb' Hnz' Hc Hc'.
  destruct (decode_chain k w v b Hs Hb Hnz Hc k' []) as (es & E & Hlen & _).
  destruct (decode_chain k' w' v b' Hs' Hb' Hnz' Hc' k []) as (es' & E' & Hlen' & _).
  replace (S k' + k)%nat with (S k + k')%nat in E' by lia.
  rewrite E in E'. injection E' as _ Hes. simpl in Hes. subst es'. lia.
Qed.

(** The vectors along a chain are pairwise distinct. *)
Lemma chain_states k w v b :
  size w = n + 1 -> at_ w n = Ret b -> b <> 0 ->
  chain n l p lg k w v ->
  exists sts, length sts = S k /\ NoDup sts /\
    forall s, In s sts -> exists j, (j <= k)%nat /\ chain n l p lg j w s.
Proof.
  intros Hs Hb Hnz Hc.
  induction Hc as [w|k w v v' i q Hc IH Hcorr].
  - exists [w]. split; [reflexivity|]. split.
    + constructor; [intros [] | constructor].
    + intros s [<-|[]]. exists 0%nat. split; [lia | constructor].
  - destruct (IH Hs Hb) as (sts & Hlen & Hnd & Hall).
    exists (v' :: sts). split; [simpl; lia|]. split.
    + constructor; [|assumption]. intros Hin.
      destruct (Hall v' Hin) as (j & Hj & Hcj).
      assert (j = S k); [|lia].
      eapply (chain_depth j (S k) w w v' b b); eauto.
      eapply chain_step; eauto.
    + intros s [<-|Hin].
      * exists (S k). split; [lia|]. eapply chain_step; eauto.
      * destruct (Hall s Hin) as (j & Hj & Hcj). exists j. split; [lia | assumption].
Qed.

Lemma length_all_bits k : length (all_bits k) = (2 ^ k)%nat.
Proof.
  induction k as [|k IH]; [reflexivity|].
  cbn [all_bits]. rewrite length_app, !length_map. unfold vi in *. rewrite IH.
  rewrite Nat.pow_succ_r'. lia.
Qed.

Lemma In_all_bits v : bitvec v -> In v (all_bits (length v)).
Proof.
  induction 1 as [|x v Hx Hv IH]; [now left|].
  cbn [all_bits length]. apply in_or_app.
  destruct Hx as [->| ->]; [left | right]; now apply in_map.
Qed.

(** A chain from a bit vector has fewer than [2^(n+1)] corrections. *)
Lemma chain_bound k w v b :
  size w = n + 1 -> at_ w n = Ret b -> b <> 0 -> bitvec w ->
  chain n l p lg k w v -> (S k <= 2 ^ Z.to_nat (n + 1))%nat.
Proof.
  intros Hs Hb Hnz Hbits Hc.
  destruct (chain_states k w v b Hs Hb Hnz Hc) as (sts & Hlen & Hnd & Hall).
  rewrite <- Hlen, <- length_all_bits.
  apply NoDup_incl_length; [assumption|].
  intros s Hin. destruct (Hall s Hin) as (j & _ & Hcj).
  replace (Z.to_nat (n + 1)) with (length s).
  - apply In_all_bits. now apply (chain_bitvec j w).
  - pose proof (chain_size j w s Hs Hcj) as Hss. unfold size in Hss. lia.
Qed.

(** *** The scan of the encoder *)

Lemma scan_body_Ret t v f v' f' :
  0 <= t < (n + 1) - (l - 1) ->
  scan_body n l p lg t (v, f) = Ret (v', f') ->
  (exists q, corr n l p lg v v' t q /\ f' = true) \/
  (v' = v /\ f' = f /\ window_ok l p v t).
Proof.
  intros Ht H. unfold scan_body in H.
  destruct (range v t (t + l)) as [win| | |] eqn:Er; try discriminate.
  cbn [bind] in H.
  destruct (ComputeMinPeriod win) as [q| | |] eqn:Em; try discriminate.
  cbn [bind] in H.
  destruct (Z.ltb_spec q p) as [Hlt|Hge].
  - destruct (correct n l p lg t q v) as [v''| | |] eqn:Ec; try discriminate.
    cbn [bind] in H. injection H as <- <-.
    left. exists q. split; [|reflexivity].
    split; [assumption|]. exists win. auto.
  - injection H as <- <-. right. repeat split. exists win, q. auto.
Qed.

Lemma scan_body_total t v f :
  l = p + lg + 1 -> 1 <= p -> size v = n + 1 ->
  0 <= t < (n + 1) - (l - 1) ->
  exists st, scan_body n l p lg t (v, f) = Ret st.
Proof.
  intros Hl Hp Hs Ht. pose proof lg_bounds as [Hlg Hpow]. unfold scan_body.
  destruct (range v t (t + l)) as [win| | |] eqn:Er;
    try (rewrite range_ok in Er by lia; discriminate).
  cbn [bind]. apply range_inv in Er. destruct Er as (_ & _ & Hsw & _).
  assert (Hne : win <> []) by (intros ->; rewrite size_nil in Hsw; lia).
  destruct (ComputeMinPeriod_ok win Hne) as (q & Em & [Hq _] & _).
  rewrite Em. cbn [bind].
  destruct (Z.ltb_spec q p) as [Hlt|Hge]; [|eauto].
  unfold correct.
  rewrite (repair_eq l p t q v) with (bs := bits t lg);
    try lia; [|apply toBinary_ok; lia].
  cbn [bind].
  rewrite !size_app, size_collapsed, size_bits, size_cons, size_nil by lia.
  destruct (Z.eqb_spec (size v - (l - p) + lg + (0 + 1)) (n + 1)); [|lia].
  cbn [bind]. eauto.
Qed.

Lemma scan_Ret w w' found :
  size w = n + 1 -> scan n l p lg w = Ret (w', found) ->
  exists k, chain n l p lg k w w' /\
    (found = true -> (1 <= k)%nat) /\
    (found = false ->
       w' = w /\ forall i, 0 <= i < (n + 1) - (l - 1) -> window_ok l p w i).
Proof.
  intros Hs H. unfold scan in H.
  destruct (Z.le_gt_cases 0 ((n + 1) - (l - 1))) as [Hhi|Hhi].
  - apply (for_loop_Ret
      (fun t st => size (fst st) = n + 1 /\
         exists k, chain n l p lg k w (fst st) /\
           (snd st = true -> (1 <= k)%nat) /\
           (snd st = false ->
              fst st = w /\ forall i, 0 <= i < t -> window_ok l p w i))) in H.
    + cbn [fst snd] in H. destruct H as (_ & k & Hc & Ht & Hf). eauto.
    + assumption.
    + cbn [fst snd]. split; [assumption|]. exists 0%nat.
      split; [constructor|]. split; [discriminate|].
      intros _. split; [reflexivity|]. intros i Hi. lia.
    + intros t [v f] [v' f'] Ht (Hsv & k & Hc & Hft & Hff) Hb.
      cbn [fst snd] in *.
      destruct (scan_body_Ret t v f v' f' Ht Hb) as [(q & Hcorr & ->)|(-> & -> & Hok)].
      * split; [apply (corr_undo v v' t q); auto|].
        exists (S k). split; [eapply chain_step; eauto|].
        split; [lia | discriminate].
      * split; [assumption|]. exists k. split; [assumption|].
        split; [assumption|]. intros Hfalse.
        destruct (Hff Hfalse) as [-> Hall]. split; [reflexivity|].
        intros i Hi. destruct (Z.eq_dec i t) as [->|Hne]; [assumption|].
        apply Hall. lia.
  - rewrite for_loop_empty in H by lia. injection H as <- <-.
    exists 0%nat. split; [constructor|]. split; [discriminate|].
    intros _. split; [reflexivity|]. intros i Hi. lia.
Qed.

Lemma scan_total w :
  l = p + lg + 1 -> 1 <= p -> size w = n + 1 ->
  exists st, scan n l p lg w = Ret st.
Proof.
  intros Hl Hp Hs. unfold scan.
  destruct (Z.le_gt_cases 0 ((n + 1) - (l - 1))) as [Hhi|Hhi].
  - destruct (for_loop_total (fun (t : Z) (st : vi * bool) => size (fst st) = n + 1)
      0 ((n + 1) - (l - 1)) (scan_body n l p lg) (w, false)) as (st & E & _); eauto.
    intros t [v f] Ht Hsv. cbn [fst] in Hsv.
    destruct (scan_body_total t v f Hl Hp Hsv Ht) as ([v' f'] & Eb).
    exists (v', f'). split; [assumption|]. cbn [fst].
    destruct (scan_body_Ret t v f v' f' Ht Eb) as [(q & Hcorr & _)|(-> & _)].
    + apply (corr_undo v v' t q); auto.
    + assumption.
  - rewrite for_loop_empty by lia. eauto.
Qed.

(** *** The loop of the encoder *)

Lemma encode_loop_Ret fuel : forall v out,
  size v = n + 1 -> encode_loop fuel n l p lg v = Ret out ->
  exists k, chain n l p lg k v out /\
    forall i, 0 <= i < (n + 1) - (l - 1) -> window_ok l p out i.
Proof.
  induction fuel as [|f IH]; intros v out Hs H; [discriminate|].
  cbn [encode_loop] in H.
  destruct (scan n l p lg v) as [[v' found]| | |] eqn:Es; try discriminate.
  cbn [bind] in H.
  destruct (scan_Ret v v' found Hs Es) as (k & Hc & Ht & Hf).
  destruct found.
  - destruct (IH v' out (chain_size k v v' Hs Hc) H) as (k' & Hc' & Hok).
    exists (k + k')%nat. split; [eapply chain_app; eauto | assumption].
  - injection H as <-. destruct (Hf eq_refl) as [-> Hok].
    exists 0%nat. split; [constructor | assumption].
Qed.

Lemma encode_loop_mono fuel : forall fuel' v out,
  encode_loop fuel n l p lg v = Ret out -> (fuel <= fuel')%nat ->
  encode_loop fuel' n l p lg v = Ret out.
Proof.
  induction fuel as [|f IH]; intros fuel' v out H Hle; [discriminate|].
  destruct fuel' as [|f']; [lia|].
  cbn [encode_loop] in *.
  destruct (scan n l p lg v) as [[v' found]| | |]; try discriminate.
  cbn [bind] in *. destruct found; [|assumption].
  apply IH; [assumption | lia].
Qed.

(** Within [2^(n+1)] passes the scan finds no violation. *)
Lemma encode_loop_total w0 b :
  l = p + lg + 1 -> 1 <= p ->
  size w0 = n + 1 -> at_ w0 n = Ret b -> b <> 0 -> bitvec w0 ->
  forall fuel k v,
    chain n l p lg k w0 v -> (2 ^ Z.to_nat (n + 1) <= k + fuel)%nat ->
    exists out, encode_loop fuel n l p lg v = Ret out.
Proof.
  intros Hl Hp Hs Hb Hnz Hbits.
  induction fuel as [|f IH]; intros k v Hc Hfuel.
  - pose proof (chain_bound k w0 v b Hs Hb Hnz Hbits Hc). lia.
  - pose proof (chain_size k w0 v Hs Hc) as Hsv.
    destruct (scan_total v Hl Hp Hsv) as ([v' found] & Es).
    cbn [encode_loop]. rewrite Es. cbn [bind].
    destruct (scan_Ret v v' found Hsv Es) as (k1 & Hc1 & Ht & Hf).
    destruct found; [|eauto].
    apply (IH (k + k1)%nat).
    + eapply chain_app; eauto.
    + specialize (Ht eq_refl). lia.
Qed.
End Coder.

(** ** The encoder and the decoder as a whole *)

Lemma decode_loop_mono n l p lg fuel : forall fuel' v log r,
  decode_loop fuel n l p lg v log = Ret r -> (fuel <= fuel')%nat ->
  decode_loop fuel' n l p lg v log = Ret r.
Proof.
  induction fuel as [|f IH]; intros fuel' v log r H Hle; [discriminate|].
  destruct fuel' as [|f']; [lia|].
  cbn [decode_loop] in *.
  destruct (at_ v n) as [b| | |]; try discriminate. cbn [bind] in *.
  destruct (b =? 0); [|assumption].
  destruct (unwind n l p lg v) as [[v' e]| | |]; try discriminate.
  cbn [bind] in *. apply IH; [assumption | lia].
Qed.

Lemma start_facts x n :
  size x = n -> size (x ++ [1]) = n + 1 /\ at_ (x ++ [1]) n = Ret 1.
Proof.
  intros Hs. pose proof (size_nonneg x).
  assert (Hsz : size (x ++ [1]) = n + 1) by (autorewrite with vsize; lia).
  split; [assumption|].
  rewrite at_ok by lia. rewrite Znth_app by lia.
  destruct (Z.ltb_spec n (size x)); [lia|].
  rewrite Hs, Z.sub_diag. reflexivity.
Qed.

Lemma start_bitvec x : bitvec x -> bitvec (x ++ [1]).
Proof.
  intros Hb. apply Forall_app. split; [assumption|].
  constructor; [now right | constructor].
Qed.

(** Whatever [encode] returns is reached from [x ++ [1]] by a chain of
    corrections and passes the scan.  No assumption on [l] and [p]. *)
Lemma encode_Ret n l p x fuel out :
  n + 1 <= int_max -> size x = n -> encode fuel x n l p = Ret out ->
  1 <= n /\
  exists k, chain n l p (Z.log2_up n) k (x ++ [1]) out /\
    forall i, 0 <= i < (n + 1) - (l - 1) -> window_ok l p out i.
Proof.
  intros Hint Hs H. unfold encode, ceil_log2 in H.
  destruct (Z.leb_spec 1 n) as [Hn|]; [|discriminate]. cbn [bind] in H.
  split; [assumption|].
  apply (encode_loop_Ret n l p Hn Hint fuel); [|assumption].
  now apply start_facts.
Qed.

(** On valid parameters [encode] returns within [passes n] passes. *)
Lemma encode_total n l p x :
  valid n l p -> size x = n -> bitvec x ->
  exists out k,
    (forall fuel, (passes n <= fuel)%nat -> encode fuel x n l p = Ret out) /\
    chain n l p (Z.log2_up n) k (x ++ [1]) out /\
    (S k <= passes n)%nat /\
    forall i, 0 <= i < (n + 1) - (l - 1) -> window_ok l p out i.
Proof.
  intros (Hn & Hint & Hp & Hl) Hs Hb.
  destruct (start_facts x n Hs) as [Hsz Hat].
  destruct (encode_loop_total n l p Hn Hint (x ++ [1]) 1 Hl Hp Hsz Hat
              ltac:(discriminate) (start_bitvec x Hb) (passes n) 0%nat (x ++ [1]))
    as (out & E).
  { constructor. }
  { unfold passes. lia. }
  destruct (encode_loop_Ret n l p Hn Hint _ _ _ Hsz E) as (k & Hc & Hok).
  exists out, k. split; [|split; [assumption|split; [|assumption]]].
  - intros fuel Hfuel. unfold encode, ceil_log2.
    destruct (Z.leb_spec 1 n); [|lia]. cbn [bind].
    now apply (encode_loop_mono n l p (passes n)).
  - apply (chain_bound n l p Hn Hint k (x ++ [1]) out 1); auto.
    + discriminate.
    + now apply start_bitvec.
Qed.

(** [decode] walks the chain of an encoding back to its input. *)
Lemma decode_of_chain n l p x out k :
  1 <= n -> n + 1 <= int_max -> size x = n ->
  chain n l p (Z.log2_up n) k (x ++ [1]) out ->
  exists es,
    (forall fuel, (S k <= fuel)%nat -> decode_run fuel out n l p = Ret (x, es)) /\
    length es = k /\ Forall (scan_ok p) es.
Proof.
  intros Hn Hint Hs Hc.
  destruct (start_facts x n Hs) as [Hsz Hat].
  destruct (decode_chain n l p Hn Hint k (x ++ [1]) out 1 Hsz Hat
              ltac:(discriminate) Hc 0%nat []) as (es & E & Hlen & Hok).
  exists es. split; [|auto].
  intros fuel Hfuel. unfold decode_run, ceil_log2.
  destruct (Z.leb_spec 1 n); [|lia]. cbn [bind].
  rewrite (decode_loop_mono n l p _ (S k + 0) fuel out [] _ E) by lia.
  cbn [bind app]. rewrite erase_last_app. reflexivity.
Qed.

(** Whenever [encode] returns, for whatever [l] and [p], [decode] maps
    the result back to the input. *)
Lemma decode_encode_Ret n l p x fuel out :
  n + 1 <= int_max -> size x = n -> encode fuel x n l p = Ret out ->
  exists k, forall fuel', (S k <= fuel')%nat -> decode fuel' out n l p = Ret x.
Proof.
  intros Hint Hs He.
  destruct (encode_Ret n l p x fuel out Hint Hs He) as (Hn & k & Hc & _).
  destruct (decode_of_chain n l p x out k Hn Hint Hs Hc) as (es & Hd & _).
  exists k. intros fuel' Hfuel. unfold decode. rewrite Hd by lia. reflexivity.
Qed.

(** ** Runs of the model on the examples of the specification *)

Example ComputeZ_101010 : ComputeZ [1; 0; 1; 0; 1; 0] = Ret [0; 4; 0; 2; 0; 0].
Proof. reflexivity. Qed.

Example ComputePeriods_101010 : ComputePeriods [1; 0; 1; 0; 1; 0] = Ret [2; 4; 6].
Proof. reflexivity. Qed.

Example ComputeMinPeriod_101010 : ComputeMinPeriod [1; 0; 1; 0; 1; 0] = Ret 2.
Proof. reflexivity. Qed.

Example toBinary_5 : toBinary 5 4 = Ret [1; 0; 1; 0].
Proof. reflexivity. Qed.

Example fromBinary_5 : fromBinary [1; 0; 1; 0] 4 = Ret 5.
Proof. reflexivity. Qed.

(** The all-zero input of the validated configuration takes two repairs,
    at the windows 0 and 1, and is decoded with the scans stopping at
    offsets [1 + 13] and [0 + 1]. *)
Example encode_zeros_20 :
  encode 3 (repeat 0 20) 20 20 14
  = Ret [0; 1; 0; 0; 0; 0; 0; 0; 0; 0; 0; 0; 0; 0; 1; 1; 0; 0; 0; 0; 0].
Proof. vm_compute. reflexivity. Qed.

Example decode_zeros_20 :
  decode_run 3 [0; 1; 0; 0; 0; 0; 0; 0; 0; 0; 0; 0; 0; 0; 1; 1; 0; 0; 0; 0; 0]
    20 20 14
  = Ret (repeat 0 20, [mkEntry 1 14 1; mkEntry 0 1 1]).
Proof. vm_compute. reflexivity. Qed.

(** * The claims *)

(** ** Bit-integer codec *)

(** C9 (amended to the widths an [int] supports).  For every width
    [0 <= w <= 32] and every [int] value [0 <= v < 2^w], [toBinary v w]
    returns exactly [w] bits, little-endian (index [j] holds bit [j] of
    [v]), and [fromBinary] of them is [v] again. *)
Theorem fromBinary_toBinary v w :
  0 <= w <= 32 -> 0 <= v <= int_max -> v < 2 ^ w ->
  toBinary v w = Ret (bits v w) /\
  size (bits v w) = w /\
  (forall j, 0 <= j < w -> Znth (bits v w) j = Z.b2z (Z.testbit v j)) /\
  (b <- toBinary v w ;; fromBinary b w) = Ret v.
Proof.
  intros Hw Hv Hlt.
  split; [apply toBinary_ok; lia|].
  split; [apply size_bits; lia|].
  split; [intros j Hj; now apply Znth_bits|].
  rewrite toBinary_ok by lia. cbn [bind].
  rewrite fromBinary_bits by lia. f_equal. apply Z.mod_small. lia.
Qed.

Lemma fromBinary_toBinary_witness :
  0 <= 4 <= 32 /\ 0 <= 5 <= int_max /\ 5 < 2 ^ 4 /\
  toBinary 5 4 = Ret (bits 5 4) /\
  size (bits 5 4) = 4 /\
  (forall j, 0 <= j < 4 -> Znth (bits 5 4) j = Z.b2z (Z.testbit 5 j)) /\
  (b <- toBinary 5 4 ;; fromBinary b 4) = Ret 5.
Proof.
  assert (H1 : 0 <= 4 <= 32) by lia.
  assert (H2 : 0 <= 5 <= int_max) by (unfold int_max; lia).
  assert (H3 : 5 < 2 ^ 4) by lia.
  split; [exact H1|]. split; [exact H2|]. split; [exact H3|].
  exact (fromBinary_toBinary 5 4 H1 H2 H3).
Defined.

(** C9, counterexample: at width 33 the loop of [toBinary] shifts by 32,
    which is not defined on a 32-bit [int]; the call does not return [1]. *)
Lemma fromBinary_toBinary_width_33 :
  0 <= 33 /\ 0 <= 1 < 2 ^ 33 /\
  (b <- toBinary 1 33 ;; fromBinary b 33) = Fault.
Proof. split; [lia|]. split; [lia|]. vm_compute. reflexivity. Qed.

(** C10 (amended to the widths an [int] supports).  For every width
    [0 <= w <= 32] and every [int] value [v >= 0], also when [v >= 2^w],
    [toBinary v w] is the list of the [w] least significant bits of [v],
    and [fromBinary] of it is [v mod 2^w]. *)
Theorem toBinary_truncates v w :
  0 <= w <= 32 -> 0 <= v <= int_max ->
  toBinary v w = Ret (bits v w) /\
  (b <- toBinary v w ;; fromBinary b w) = Ret (v mod 2 ^ w).
Proof.
  intros Hw Hv. split; [apply toBinary_ok; lia|].
  rewrite toBinary_ok by lia. cbn [bind]. apply fromBinary_bits; lia.
Qed.

Lemma toBinary_truncates_witness :
  0 <= 3 <= 32 /\ 0 <= 29 <= int_max /\
  toBinary 29 3 = Ret (bits 29 3) /\
  (b <- toBinary 29 3 ;; fromBinary b 3) = Ret (29 mod 2 ^ 3).
Proof.
  assert (H1 : 0 <= 3 <= 32) by lia.
  assert (H2 : 0 <= 29 <= int_max) by (unfold int_max; lia).
  split; [exact H1|]. split; [exact H2|].
  exact (toBinary_truncates 29 3 H1 H2).
Defined.

(** C10, counterexample: at width 40 the shift count reaches 32 and
    [toBinary] does not return the low bits of [5]. *)
Lemma toBinary_width_40 :
  0 <= 40 /\ 0 <= 5 /\ toBinary 5 40 = Fault /\
  (b <- toBinary 5 40 ;; fromBinary b 40) <> Ret (5 mod 2 ^ 40).
Proof.
  split; [lia|]. split; [lia|]. split; [vm_compute; reflexivity|].
  vm_compute. discriminate.
Qed.

(** ** Period analyser *)

(** C7 (amended to non-empty [s]).  For every non-empty [s],
    [ComputePeriods s] returns the ascending list of exactly those [q] in
    [1..|s|] with [q + Z[q] = |s|], where [Z] is the Z-array of the
    specification (its entry at [|s|] is [0]); the list is non-empty and
    its last element is [|s|]. *)
Theorem ComputePeriods_spec s :
  s <> [] ->
  ComputePeriods s = Ret (periods_spec s) /\
  StronglySorted Z.lt (periods_spec s) /\
  (forall q, In q (periods_spec s) <->
             1 <= q <= size s /\ q + Zarray s q = size s) /\
  Zarray s (size s) = 0 /\
  periods_spec s <> [] /\
  last (periods_spec s) 0 = size s.
Proof.
  intros Hne.
  split; [apply ComputePeriods_ok|].
  split; [apply periods_spec_sorted|].
  split; [apply In_periods_spec|].
  split; [apply Zarray_end|].
  destruct (periods_spec_last s Hne) as (front & ->).
  split; [destruct front; discriminate | apply last_last].
Qed.

Lemma ComputePeriods_spec_witness :
  [1; 0; 1; 0; 1; 0] <> [] /\
  ComputePeriods [1; 0; 1; 0; 1; 0] = Ret (periods_spec [1; 0; 1; 0; 1; 0]) /\
  StronglySorted Z.lt (periods_spec [1; 0; 1; 0; 1; 0]) /\
  (forall q, In q (periods_spec [1; 0; 1; 0; 1; 0]) <->
             1 <= q <= size [1; 0; 1; 0; 1; 0] /\
             q + Zarray [1; 0; 1; 0; 1; 0] q = size [1; 0; 1; 0; 1; 0]) /\
  Zarray [1; 0; 1; 0; 1; 0] (size [1; 0; 1; 0; 1; 0]) = 0 /\
  periods_spec [1; 0; 1; 0; 1; 0] <> [] /\
  last (periods_spec [1; 0; 1; 0; 1; 0]) 0 = size [1; 0; 1; 0; 1; 0].
Proof.
  assert (H : [1; 0; 1; 0; 1; 0] <> []) by discriminate.
  split; [exact H|]. exact (ComputePeriods_spec [1; 0; 1; 0; 1; 0] H).
Defined.

(** C7, counterexample: on the empty vector the loop of [ComputePeriods]
    does not run and the returned list is empty. *)
Lemma ComputePeriods_empty : ComputePeriods [] = Ret [].
Proof. reflexivity. Qed.

(** C8.  On every non-empty [s], [ComputeMinPeriod s] returns the minimum
    of the list [ComputePeriods s]; on the empty vector it does not
    return a value (it dereferences [end()]). *)
Theorem ComputeMinPeriod_defined :
  (forall s, s <> [] ->
     exists ps q,
       ComputePeriods s = Ret ps /\ ComputeMinPeriod s = Ret q /\
       In q ps /\ forall q', In q' ps -> q <= q') /\
  ComputeMinPeriod [] = Fault.
Proof.
  split; [|reflexivity].
  intros s Hne. destruct (ComputeMinPeriod_ok s Hne) as (q & E & Hq & Hmin).
  exists (periods_spec s), q.
  split; [apply ComputePeriods_ok|]. split; [assumption|].
  split; [now apply periods_spec_is_period|].
  intros q' Hq'. apply Hmin. now apply periods_spec_is_period.
Qed.

Lemma ComputeMinPeriod_defined_witness :
  [1; 0; 1; 0; 1; 0] <> [] /\
  exists ps q,
    ComputePeriods [1; 0; 1; 0; 1; 0] = Ret ps /\
    ComputeMinPeriod [1; 0; 1; 0; 1; 0] = Ret q /\
    In q ps /\ forall q', In q' ps -> q <= q'.
Proof.
  assert (H : [1; 0; 1; 0; 1; 0] <> []) by discriminate.
  split; [exact H|].
  exact (proj1 ComputeMinPeriod_defined [1; 0; 1; 0; 1; 0] H).
Defined.

(** ** Encoder and decoder *)

(** C1 (amended to [l = p + ceil(log2 n) + 1]).  For every parameter
    triple with [p >= 1] and [l] exactly [p + ceil(log2 n) + 1] ([n + 1]
    an [int]) and every bit sequence [x] of length [n], [encode] returns
    within [passes n] passes of its loop and [decode] of the result
    returns [x]. *)
Theorem encode_decode_roundtrip n l p x :
  valid n l p -> size x = n -> bitvec x ->
  forall fuel fuel', (passes n <= fuel)%nat -> (passes n <= fuel')%nat ->
    (out <- encode fuel x n l p ;; decode fuel' out n l p) = Ret x.
Proof.
  intros Hv Hs Hb fuel fuel' Hfuel Hfuel'.
  destruct (encode_total n l p x Hv Hs Hb) as (out & k & He & Hc & Hk & _).
  destruct Hv as (Hn & Hint & _).
  destruct (decode_of_chain n l p x out k Hn Hint Hs Hc) as (es & Hd & _).
  rewrite (He fuel Hfuel). cbn [bind].
  unfold decode. rewrite Hd by lia. reflexivity.
Qed.

Lemma encode_decode_roundtrip_witness :
  valid 8 6 2 /\ size [0; 0; 1; 1; 0; 0; 0; 0] = 8 /\
  bitvec [0; 0; 1; 1; 0; 0; 0; 0] /\
  forall fuel fuel', (passes 8 <= fuel)%nat -> (passes 8 <= fuel')%nat ->
    (out <- encode fuel [0; 0; 1; 1; 0; 0; 0; 0] 8 6 2 ;; decode fuel' out 8 6 2)
    = Ret [0; 0; 1; 1; 0; 0; 0; 0].
Proof.
  assert (H1 : valid 8 6 2).
  { unfold valid, int_max. split; [lia|]. split; [lia|]. split; [lia|]. reflexivity. }
  assert (H2 : size [0; 0; 1; 1; 0; 0; 0; 0] = 8) by reflexivity.
  assert (H3 : bitvec [0; 0; 1; 1; 0; 0; 0; 0]).
  { unfold bitvec. repeat (constructor; [lia|]). constructor. }
  split; [exact H1|]. split; [exact H2|]. split; [exact H3|].
  exact (encode_decode_roundtrip 8 6 2 [0; 0; 1; 1; 0; 0; 0; 0] H1 H2 H3).
Defined.

(** C1, counterexample: with [n = 8], [p = 2] and [l = 7], one more than
    [p + ceil(log2 n) + 1 = 6], the all-zero input is not encoded: the
    first repair leaves 8 elements and the assertion fails, so no run of
    [encode] followed by [decode] returns the input. *)
Lemma roundtrip_fails_longer_window :
  7 >= 2 + Z.log2_up 8 + 1 /\ 2 >= 1 /\
  (forall fuel, encode (S fuel) [0; 0; 0; 0; 0; 0; 0; 0] 8 7 2 = AssertFail) /\
  forall fuel fuel',
    (out <- encode fuel [0; 0; 0; 0; 0; 0; 0; 0] 8 7 2 ;; decode fuel' out 8 7 2)
    <> Ret [0; 0; 0; 0; 0; 0; 0; 0].
Proof.
  assert (H : forall fuel, encode (S fuel) [0; 0; 0; 0; 0; 0; 0; 0] 8 7 2 = AssertFail).
  { intros fuel. vm_compute. reflexivity. }
  split; [vm_compute; discriminate|]. split; [lia|]. split; [exact H|].
  intros [|fuel] fuel'; [discriminate|]. rewrite H. discriminate.
Qed.

(** C2 (amended to [l = p + ceil(log2 n) + 1]).  For every such triple
    and every bit sequence [x] of length [n], [encode] returns and every
    window of length [l] of the result, at the starts
    [0 <= i < (n+1)-(l-1)], has [ComputeMinPeriod >= p]; no [q < p] is a
    period of such a window. *)
Theorem encode_period_bound n l p x :
  valid n l p -> size x = n -> bitvec x ->
  exists out,
    (forall fuel, (passes n <= fuel)%nat -> encode fuel x n l p = Ret out) /\
    forall i, 0 <= i < (n + 1) - (l - 1) ->
      exists win q,
        range out i (i + l) = Ret win /\ ComputeMinPeriod win = Ret q /\ p <= q /\
        forall q', is_period win q' -> p <= q'.
Proof.
  intros Hv Hs Hb.
  destruct (encode_total n l p x Hv Hs Hb) as (out & k & He & _ & _ & Hok).
  exists out. split; [assumption|].
  intros i Hi. destruct (Hok i Hi) as (win & q & Er & Em & Hpq).
  exists win, q. repeat (split; [assumption|]).
  intros q' Hq'. apply ComputeMinPeriod_inv in Em. destruct Em as [_ Hmin].
  specialize (Hmin q' Hq'). lia.
Qed.

Lemma encode_period_bound_witness :
  valid 8 6 2 /\ size [1; 1; 1; 1; 1; 1; 1; 1] = 8 /\
  bitvec [1; 1; 1; 1; 1; 1; 1; 1] /\
  exists out,
    (forall fuel, (passes 8 <= fuel)%nat ->
       encode fuel [1; 1; 1; 1; 1; 1; 1; 1] 8 6 2 = Ret out) /\
    forall i, 0 <= i < (8 + 1) - (6 - 1) ->
      exists win q,
        range out i (i + 6) = Ret win /\ ComputeMinPeriod win = Ret q /\ 2 <= q /\
        forall q', is_period win q' -> 2 <= q'.
Proof.
  assert (H1 : valid 8 6 2).
  { unfold valid, int_max. split; [lia|]. split; [lia|]. split; [lia|]. reflexivity. }
  assert (H2 : size [1; 1; 1; 1; 1; 1; 1; 1] = 8) by reflexivity.
  assert (H3 : bitvec [1; 1; 1; 1; 1; 1; 1; 1]).
  { unfold bitvec. repeat (constructor; [lia|]). constructor. }
  split; [exact H1|]. split; [exact H2|]. split; [exact H3|].
  exact (encode_period_bound 8 6 2 [1; 1; 1; 1; 1; 1; 1; 1] H1 H2 H3).
Defined.

(** C2, counterexample: with [n = 8], [p = 2], [l = 7] the all-one input
    has no encoding whose windows could be checked: every run of [encode]
    stops without a result. *)
Lemma no_encoding_longer_window :
  7 >= 2 + Z.log2_up 8 + 1 /\ 2 >= 1 /\
  forall fuel out, encode fuel [1; 1; 1; 1; 1; 1; 1; 1] 8 7 2 <> Ret out.
Proof.
  split; [vm_compute; discriminate|]. split; [lia|].
  intros [|fuel] out; [discriminate|].
  assert (H : encode (S fuel) [1; 1; 1; 1; 1; 1; 1; 1] 8 7 2 = AssertFail)
    by (vm_compute; reflexivity).
  rewrite H. discriminate.
Qed.

(** C3 (amended to [l = p + ceil(log2 n) + 1]).  For every such triple
    and every bit sequence [x] of length [n], [encode] returns a sequence
    of length exactly [n + 1]. *)
Theorem encode_length n l p x :
  valid n l p -> size x = n -> bitvec x ->
  exists out,
    (forall fuel, (passes n <= fuel)%nat -> encode fuel x n l p = Ret out) /\
    size out = n + 1.
Proof.
  intros Hv Hs Hb.
  destruct (encode_total n l p x Hv Hs Hb) as (out & k & He & Hc & _ & _).
  destruct Hv as (Hn & Hint & _).
  exists out. split; [assumption|].
  apply (chain_size n l p Hn Hint k (x ++ [1])); [|assumption].
  now apply start_facts.
Qed.

Lemma encode_length_witness :
  valid 8 6 2 /\ size [0; 1; 0; 1; 0; 1; 0; 1] = 8 /\
  bitvec [0; 1; 0; 1; 0; 1; 0; 1] /\
  exists out,
    (forall fuel, (passes 8 <= fuel)%nat ->
       encode fuel [0; 1; 0; 1; 0; 1; 0; 1] 8 6 2 = Ret out) /\
    size out = 8 + 1.
Proof.
  assert (H1 : valid 8 6 2).
  { unfold valid, int_max. split; [lia|]. split; [lia|]. split; [lia|]. reflexivity. }
  assert (H2 : size [0; 1; 0; 1; 0; 1; 0; 1] = 8) by reflexivity.
  assert (H3 : bitvec [0; 1; 0; 1; 0; 1; 0; 1]).
  { unfold bitvec. repeat (constructor; [lia|]). constructor. }
  split; [exact H1|]. split; [exact H2|]. split; [exact H3|].
  exact (encode_length 8 6 2 [0; 1; 0; 1; 0; 1; 0; 1] H1 H2 H3).
Defined.

(** C3, counterexample: with [n = 8], [p = 3] and [l = 8], one more than
    [p + ceil(log2 n) + 1 = 7], the input [01010101] makes the assertion
    [out.size() == n + 1] fail: [encode] returns no sequence. *)
Lemma encode_asserts_longer_window :
  8 >= 3 + Z.log2_up 8 + 1 /\ 3 >= 1 /\
  forall fuel, encode (S fuel) [0; 1; 0; 1; 0; 1; 0; 1] 8 8 3 = AssertFail.
Proof.
  split; [vm_compute; discriminate|]. split; [lia|].
  intros fuel. vm_compute. reflexivity.
Qed.

(** C4.  For [n = 20], [l = 20], [p = 14] the loop of [encode] ends on
    every bit sequence of length 20: [passes 20] passes suffice for
    [encode] to return. *)
Theorem encode_terminates_20_20_14 x :
  size x = 20 -> bitvec x ->
  exists out,
    forall fuel, (passes 20 <= fuel)%nat -> encode fuel x 20 20 14 = Ret out.
Proof.
  intros Hs Hb.
  assert (Hv : valid 20 20 14).
  { unfold valid, int_max. split; [lia|]. split; [lia|]. split; [lia|]. reflexivity. }
  destruct (encode_total 20 20 14 x Hv Hs Hb) as (out & k & He & _).
  exists out. exact He.
Qed.

Lemma encode_terminates_20_20_14_witness :
  size [0; 0; 0; 0; 0; 0; 0; 0; 0; 0; 0; 0; 0; 0; 0; 0; 0; 0; 0; 0] = 20 /\
  bitvec [0; 0; 0; 0; 0; 0; 0; 0; 0; 0; 0; 0; 0; 0; 0; 0; 0; 0; 0; 0] /\
  exists out,
    forall fuel, (passes 20 <= fuel)%nat ->
      encode fuel [0; 0; 0; 0; 0; 0; 0; 0; 0; 0; 0; 0; 0; 0; 0; 0; 0; 0; 0; 0]
        20 20 14 = Ret out.
Proof.
  assert (H2 : size [0; 0; 0; 0; 0; 0; 0; 0; 0; 0; 0; 0; 0; 0; 0; 0; 0; 0; 0; 0] = 20)
    by reflexivity.
  assert (H3 : bitvec [0; 0; 0; 0; 0; 0; 0; 0; 0; 0; 0; 0; 0; 0; 0; 0; 0; 0; 0; 0]).
  { unfold bitvec. repeat (constructor; [lia|]). constructor. }
  split; [exact H2|]. split; [exact H3|].
  exact (encode_terminates_20_20_14 _ H2 H3).
Defined.

(** C5 (amended to [l = p + ceil(log2 n) + 1]).  For every such triple,
    one repair of a window (erase [[i+p, i+l)], write the marker, append
    the [ceil(log2 n)]-bit index and one flag bit) applied to a working
    sequence of length [n + 1] returns a sequence of length [n + 1], and
    the assertion after it holds. *)
Theorem correction_keeps_length n l p i q w :
  valid n l p -> size w = n + 1 ->
  0 <= i < (n + 1) - (l - 1) -> 1 <= q < p ->
  exists w',
    repair l p (Z.log2_up n) i q w = Ret w' /\
    size w' = n + 1 /\
    correct n l p (Z.log2_up n) i q w = Ret w'.
Proof.
  intros (Hn & Hint & Hp & Hl) Hs Hi Hq.
  destruct (log2_up_bounds n ltac:(lia)) as [Hlg Hpow].
  assert (Hbs : toBinary i (Z.log2_up n) = Ret (bits i (Z.log2_up n)))
    by (apply toBinary_ok; lia).
  assert (Hr : repair l p (Z.log2_up n) i q w =
               Ret ((collapsed l p i q w ++ bits i (Z.log2_up n)) ++ [0]))
    by (apply repair_eq; auto; lia).
  assert (Hsz : size ((collapsed l p i q w ++ bits i (Z.log2_up n)) ++ [0]) = n + 1).
  { rewrite !size_app, size_collapsed, size_bits, size_cons, size_nil by lia. lia. }
  eexists. split; [exact Hr|]. split; [exact Hsz|].
  unfold correct. rewrite Hr. cbn [bind]. rewrite Hsz, Z.eqb_refl. reflexivity.
Qed.

Lemma correction_keeps_length_witness :
  valid 8 6 2 /\ size [0; 0; 0; 0; 0; 0; 0; 0; 1] = 8 + 1 /\
  0 <= 0 < (8 + 1) - (6 - 1) /\ 1 <= 1 < 2 /\
  exists w',
    repair 6 2 (Z.log2_up 8) 0 1 [0; 0; 0; 0; 0; 0; 0; 0; 1] = Ret w' /\
    size w' = 8 + 1 /\
    correct 8 6 2 (Z.log2_up 8) 0 1 [0; 0; 0; 0; 0; 0; 0; 0; 1] = Ret w'.
Proof.
  assert (H1 : valid 8 6 2).
  { unfold valid, int_max. split; [lia|]. split; [lia|]. split; [lia|]. reflexivity. }
  assert (H2 : size [0; 0; 0; 0; 0; 0; 0; 0; 1] = 8 + 1) by reflexivity.
  assert (H3 : 0 <= 0 < (8 + 1) - (6 - 1)) by lia.
  assert (H4 : 1 <= 1 < 2) by lia.
  split; [exact H1|]. split; [exact H2|]. split; [exact H3|]. split; [exact H4|].
  exact (correction_keeps_length 8 6 2 0 1 [0; 0; 0; 0; 0; 0; 0; 0; 1] H1 H2 H3 H4).
Defined.

(** C5, counterexample: with [n = 8], [p = 2], [l = 7] the repair of the
    window at [0] turns a working sequence of length 9 into one of length
    8, and the assertion after it fails. *)
Lemma correction_shrinks_longer_window :
  7 >= 2 + Z.log2_up 8 + 1 /\
  size [0; 0; 0; 0; 0; 0; 0; 0; 1] = 8 + 1 /\
  repair 7 2 (Z.log2_up 8) 0 1 [0; 0; 0; 0; 0; 0; 0; 0; 1]
    = Ret [0; 1; 0; 1; 0; 0; 0; 0] /\
  size [0; 1; 0; 1; 0; 0; 0; 0] <> 8 + 1 /\
  correct 8 7 2 (Z.log2_up 8) 0 1 [0; 0; 0; 0; 0; 0; 0; 0; 1] = AssertFail.
Proof.
  split; [vm_compute; discriminate|]. split; [reflexivity|].
  split; [vm_compute; reflexivity|]. split; [vm_compute; discriminate|].
  vm_compute. reflexivity.
Qed.

(** C6.  For every output [out] of [encode] on an input of length [n]
    (with the same [n], [l], [p]; [n + 1] an [int]), [decode] returns on
    [out], and in each of its unwind iterations the backward scan from
    [index + p - 1] stops at a position [j] with
    [index <= j <= index + p - 1] on a bit equal to 1. *)
Theorem decode_scan_stays_in_window n l p x fuel out :
  n + 1 <= int_max -> size x = n -> encode fuel x n l p = Ret out ->
  exists k es,
    (forall fuel', (S k <= fuel')%nat -> decode_scans fuel' out n l p = Ret es) /\
    length es = k /\
    Forall (scan_ok p) es.
Proof.
  intros Hint Hs He.
  destruct (encode_Ret n l p x fuel out Hint Hs He) as (Hn & k & Hc & _).
  destruct (decode_of_chain n l p x out k Hn Hint Hs Hc) as (es & Hd & Hlen & Hok).
  exists k, es. split; [|auto].
  intros fuel' Hfuel. unfold decode_scans. rewrite Hd by lia. reflexivity.
Qed.

Lemma decode_scan_stays_in_window_witness :
  20 + 1 <= int_max /\
  size [0; 0; 0; 0; 0; 0; 0; 0; 0; 0; 0; 0; 0; 0; 0; 0; 0; 0; 0; 0] = 20 /\
  encode 3 [0; 0; 0; 0; 0; 0; 0; 0; 0; 0; 0; 0; 0; 0; 0; 0; 0; 0; 0; 0] 20 20 14
    = Ret [0; 1; 0; 0; 0; 0; 0; 0; 0; 0; 0; 0; 0; 0; 1; 1; 0; 0; 0; 0; 0] /\
  exists k es,
    (forall fuel', (S k <= fuel')%nat ->
       decode_scans fuel'
         [0; 1; 0; 0; 0; 0; 0; 0; 0; 0; 0; 0; 0; 0; 1; 1; 0; 0; 0; 0; 0] 20 20 14
       = Ret es) /\
    length es = k /\
    Forall (scan_ok 14) es.
Proof.
  assert (H1 : 20 + 1 <= int_max) by (unfold int_max; lia).
  assert (H2 : size [0; 0; 0; 0; 0; 0; 0; 0; 0; 0; 0; 0; 0; 0; 0; 0; 0; 0; 0; 0] = 20)
    by reflexivity.
  assert (H3 : encode 3 [0; 0; 0; 0; 0; 0; 0; 0; 0; 0; 0; 0; 0; 0; 0; 0; 0; 0; 0; 0]
                 20 20 14
               = Ret [0; 1; 0; 0; 0; 0; 0; 0; 0; 0; 0; 0; 0; 0; 1; 1; 0; 0; 0; 0; 0])
    by (vm_compute; reflexivity).
  split; [exact H1|]. split; [exact H2|]. split; [exact H3|].
  exact (decode_scan_stays_in_window 20 20 14 _ 3 _ H1 H2 H3).
Defined.

(** * Further properties of the code *)

(** ** Bit-integer codec: signs, bounds and the converse round trip *)

Lemma extract_bit_low i j :
  0 <= j < 31 ->
  Z.shiftr (Z.land i (wrap (Z.shiftl 1 j))) j = Z.b2z (Z.testbit i j).
Proof.
  intros Hj. rewrite Z.shiftl_1_l.
  assert (Hp : 0 < 2 ^ j < 2 ^ 31).
  { split; [apply Z.pow_pos_nonneg; lia | apply Z.pow_lt_mono_r; lia]. }
  rewrite wrap_small by (unfold int_min, int_max; lia).
  apply Z.bits_inj'. intros k Hk.
  rewrite Z.shiftr_spec, Z.land_spec, Z.pow2_bits_eqb by lia.
  destruct (Z.eqb_spec j (k + j)) as [E|E].
  - assert (k = 0) by lia. subst k. simpl (0 + j).
    rewrite andb_true_r. now rewrite Z.b2z_bit0.
  - rewrite andb_false_r.
    destruct (Z.testbit i j); simpl.
    + symmetry. change 1 with (2 ^ 0). rewrite Z.pow2_bits_eqb by lia.
      apply Z.eqb_neq. lia.
    + symmetry. apply Z.bits_0.
Qed.

Lemma toBinary_low i N : 0 <= N <= 31 -> toBinary i N = Ret (bits i N).
Proof.
  intros HN. unfold toBinary. rewrite make_ok by lia. cbn [bind].
  destruct (for_loop_total
    (fun j out => size out = N /\
       forall k, 0 <= k < N ->
         Znth out k = if k <? j then Z.b2z (Z.testbit i k) else 0)
    0 N
    (fun j out => m <- shl 1 j ;; b <- shr (Z.land i m) j ;; set_at out j b)
    (repeat 0 (Z.to_nat N))) as (out & E & Hs & Hout).
  - lia.
  - split; [rewrite size_repeat; lia|].
    intros k Hk. rewrite Znth_repeat by lia.
    destruct (Z.ltb_spec k (Z.of_nat (Z.to_nat N))), (Z.ltb_spec k 0);
      (reflexivity || lia).
  - intros j out Hj [Hs Hout]. unfold shl, shr.
    destruct (Z.leb_spec 0 j), (Z.ltb_spec j 32); try lia. cbn [andb bind].
    rewrite set_at_ok by lia. eexists. split; [reflexivity|].
    split; [rewrite size_upd; lia|].
    intros k Hk. rewrite Znth_upd by lia. rewrite extract_bit_low by lia.
    destruct (Z.eqb_spec k j) as [->|Hne].
    + destruct (Z.ltb_spec j (j + 1)); [reflexivity | lia].
    + rewrite Hout by lia.
      destruct (Z.ltb_spec k j), (Z.ltb_spec k (j + 1)); (reflexivity || lia).
  - rewrite E. f_equal. apply vi_ext.
    + rewrite size_bits; lia.
    + intros k Hk. rewrite Hout, Znth_bits by lia.
      destruct (Z.ltb_spec k N); [reflexivity | lia].
Qed.

Lemma bvalue_app u x : bvalue (u ++ [x]) = bvalue u + x * 2 ^ size u.
Proof.
  induction u as [|y u IH]; cbn [bvalue app].
  - rewrite size_nil. simpl. lia.
  - rewrite IH, size_cons, Z.pow_add_r by (try apply size_nonneg; lia). lia.
Qed.

Lemma bvalue_range u : bitvec u -> 0 <= bvalue u < 2 ^ size u.
Proof.
  induction 1 as [|x u Hx Hu IH]; cbn [bvalue].
  - rewrite size_nil. simpl. lia.
  - rewrite size_cons, Z.pow_add_r by (try apply size_nonneg; lia).
    destruct Hx as [-> | ->]; lia.
Qed.

Lemma bitvec_Znth u k : bitvec u -> 0 <= k < size u -> Znth u k = 0 \/ Znth u k = 1.
Proof.
  intros Hb Hk. unfold bitvec in Hb. rewrite Forall_forall in Hb.
  apply Hb. unfold Znth. apply nth_In. unfold size in Hk. lia.
Qed.

Lemma firstn_succ_Znth (u : vi) j :
  0 <= j < size u ->
  firstn (Z.to_nat (j + 1)) u = firstn (Z.to_nat j) u ++ [Znth u j].
Proof.
  intros Hj. apply vi_ext.
  - rewrite size_app, !size_firstn, size_cons, size_nil. lia.
  - intros k Hk. rewrite size_firstn in Hk.
    rewrite Znth_app, size_firstn by lia.
    replace (Z.min (Z.of_nat (Z.to_nat j)) (size u)) with j by lia.
    rewrite Znth_firstn by lia.
    destruct (Z.ltb_spec k j).
    + now rewrite Znth_firstn by lia.
    + replace k with j by lia. now rewrite Z.sub_diag.
Qed.

Lemma bitvec_firstn k u : bitvec u -> bitvec (firstn k u).
Proof.
  intros Hb. unfold bitvec in *. rewrite <- (firstn_skipn k u) in Hb.
  now apply Forall_app in Hb.
Qed.

(** [fromBinary] computes the value of the first [N] bits. *)
Lemma fromBinary_bvalue b N :
  bitvec b -> 0 <= N <= 31 -> N <= size b ->
  fromBinary b N = Ret (bvalue (firstn (Z.to_nat N) b)).
Proof.
  intros Hb HN Hs. unfold fromBinary.
  destruct (for_loop_total (fun j out => out = bvalue (firstn (Z.to_nat j) b)) 0 N
    (fun j out => x <- at_ b j ;; t <- shl x j ;; add out t) 0)
    as (out & E & Hout).
  - lia.
  - reflexivity.
  - intros j out Hj ->.
    rewrite at_ok by lia. cbn [bind]. unfold shl.
    destruct (Z.leb_spec 0 j), (Z.ltb_spec j 32); try lia. cbn [andb bind].
    rewrite Z.shiftl_mul_pow2 by lia.
    assert (Hpj : 0 < 2 ^ j) by (apply Z.pow_pos_nonneg; lia).
    assert (Hp31 : 2 ^ (j + 1) <= 2 ^ 31) by (apply Z.pow_le_mono_r; lia).
    rewrite Z.pow_add_r, Z.pow_1_r in Hp31 by lia.
    pose proof (bvalue_range _ (bitvec_firstn (Z.to_nat j) b Hb)) as Hr.
    rewrite size_firstn in Hr.
    replace (Z.min (Z.of_nat (Z.to_nat j)) (size b)) with j in Hr by lia.
    assert (Hx : Znth b j = 0 \/ Znth b j = 1) by (apply bitvec_Znth; auto; lia).
    rewrite wrap_small by (unfold int_min, int_max; destruct Hx as [-> | ->]; lia).
    unfold add, int_min, int_max.
    rewrite firstn_succ_Znth, bvalue_app, size_firstn by lia.
    replace (Z.min (Z.of_nat (Z.to_nat j)) (size b)) with j by lia.
    set (s := bvalue (firstn (Z.to_nat j) b) + Znth b j * 2 ^ j).
    assert (Hsr : 0 <= s < 2 ^ 31) by (unfold s; destruct Hx as [-> | ->]; lia).
    destruct (Z.leb_spec (- 2 ^ 31) s), (Z.leb_spec s (2 ^ 31 - 1)); try lia.
    cbn [andb]. eexists. split; reflexivity.
  - rewrite E. now subst out.
Qed.

Lemma zseq_succ lo k : zseq (lo + 1) k = map Z.succ (zseq lo k).
Proof.
  revert lo. induction k as [|k IH]; intros lo; [reflexivity|].
  cbn [zseq map]. rewrite IH. reflexivity.
Qed.

Lemma bits_bvalue u : bitvec u -> bits (bvalue u) (size u) = u.
Proof.
  induction 1 as [|x u Hx Hu IH]; [reflexivity|].
  unfold bits in *. cbn [bvalue].
  replace (Z.to_nat (size (x :: u))) with (S (Z.to_nat (size u)))
    by (rewrite size_cons; pose proof (size_nonneg u); lia).
  cbn [zseq map]. f_equal.
  - destruct Hx as [-> | ->].
    + replace (0 + 2 * bvalue u) with (2 * bvalue u + Z.b2z false) by (cbn [Z.b2z]; lia).
      now rewrite Z.testbit_0_r.
    + replace (1 + 2 * bvalue u) with (2 * bvalue u + Z.b2z true) by (cbn [Z.b2z]; lia).
      now rewrite Z.testbit_0_r.
  - rewrite <- IH at 2. change (0 + 1) with (Z.succ 0) at 1.
    rewrite <- Z.add_1_r, zseq_succ, map_map.
    apply map_ext_in. intros j Hj. apply In_zseq in Hj. f_equal.
    destruct Hx as [-> | ->].
    + replace (0 + 2 * bvalue u) with (2 * bvalue u + Z.b2z false) by (cbn [Z.b2z]; lia).
      apply Z.testbit_succ_r. lia.
    + replace (1 + 2 * bvalue u) with (2 * bvalue u + Z.b2z true) by (cbn [Z.b2z]; lia).
      apply Z.testbit_succ_r. lia.
Qed.

Lemma bits_succ i k : bits i (Z.of_nat (S k)) = bits i (Z.of_nat k) ++ [Z.b2z (Z.testbit i (Z.of_nat k))].
Proof.
  unfold bits. rewrite !Nat2Z.id, zseq_snoc, map_app. reflexivity.
Qed.

Lemma bvalue_bits i k : bvalue (bits i (Z.of_nat k)) = i mod 2 ^ Z.of_nat k.
Proof.
  induction k as [|k IH].
  - simpl. now rewrite Z.mod_1_r.
  - rewrite bits_succ, bvalue_app, IH, size_bits by lia.
    rewrite Nat2Z.inj_succ, <- Z.add_1_r. symmetry. apply mod_pow2_succ. lia.
Qed.



(** X1.  [toBinary] reads a negative [int] in two's complement: for every
    integer [i] and every width [0 <= N <= 31] it returns the [N] low
    bits of [i], and [fromBinary] of them is [i mod 2^N]. *)
Theorem toBinary_twos_complement i N :
  0 <= N <= 31 ->
  toBinary i N = Ret (bits i N) /\
  (b <- toBinary i N ;; fromBinary b N) = Ret (i mod 2 ^ N).
Proof.
  intros HN. split; [now apply toBinary_low|].
  rewrite toBinary_low by lia. cbn [bind].
  rewrite fromBinary_bvalue; [|apply bitvec_bits | lia | rewrite size_bits; lia].
  f_equal.
  replace (Z.to_nat N) with (length (bits i N))
    by (pose proof (size_bits i N ltac:(lia)) as H; unfold size in H; lia).
  rewrite firstn_all.
  rewrite <- (Z2Nat.id N) at 1 2 by lia. rewrite bvalue_bits.
  now rewrite Z2Nat.id by lia.
Qed.

Lemma toBinary_twos_complement_witness :
  0 <= 4 <= 31 /\
  toBinary (-3) 4 = Ret (bits (-3) 4) /\
  (b <- toBinary (-3) 4 ;; fromBinary b 4) = Ret ((-3) mod 2 ^ 4).
Proof.
  assert (H : 0 <= 4 <= 31) by lia.
  split; [exact H|]. exact (toBinary_twos_complement (-3) 4 H).
Defined.

(** X2.  The converse round trip: on a vector [b] of bits and a width
    [0 <= N <= 31] not above its length, [fromBinary] returns a value
    [0 <= v < 2^N], and [toBinary v N] is the vector of the first [N]
    bits of [b]. *)
Theorem toBinary_fromBinary b N :
  bitvec b -> 0 <= N <= 31 -> N <= size b ->
  exists v,
    fromBinary b N = Ret v /\ 0 <= v < 2 ^ N /\
    toBinary v N = Ret (firstn (Z.to_nat N) b).
Proof.
  intros Hb HN Hs.
  set (u := firstn (Z.to_nat N) b).
  assert (Hu : bitvec u) by now apply bitvec_firstn.
  assert (Hsu : size u = N) by (unfold u; rewrite size_firstn; lia).
  exists (bvalue u). split; [now apply fromBinary_bvalue|].
  pose proof (bvalue_range u Hu) as Hr. rewrite Hsu in Hr.
  split; [assumption|].
  rewrite toBinary_low by lia. f_equal.
  rewrite <- Hsu. now apply bits_bvalue.
Qed.

Lemma toBinary_fromBinary_witness :
  bitvec [1; 0; 1; 1; 0] /\ 0 <= 4 <= 31 /\ 4 <= size [1; 0; 1; 1; 0] /\
  exists v,
    fromBinary [1; 0; 1; 1; 0] 4 = Ret v /\ 0 <= v < 2 ^ 4 /\
    toBinary v 4 = Ret (firstn (Z.to_nat 4) [1; 0; 1; 1; 0]).
Proof.
  assert (H1 : bitvec [1; 0; 1; 1; 0]).
  { unfold bitvec. repeat (constructor; [lia|]). constructor. }
  assert (H2 : 0 <= 4 <= 31) by lia.
  assert (H3 : 4 <= size [1; 0; 1; 1; 0]) by (vm_compute; discriminate).
  split; [exact H1|]. split; [exact H2|]. split; [exact H3|].
  exact (toBinary_fromBinary [1; 0; 1; 1; 0] 4 H1 H2 H3).
Defined.





(** ** Period analyser: what the computed numbers mean *)

(** X5.  [ComputeZ] returns on every vector, with a vector of the same
    length whose cell [i - 1], for [1 <= i < |s|], is the length of the
    longest common prefix of [s] and its suffix at [i]; the last cell is
    never written and stays [0]. *)
Theorem ComputeZ_correct s :
  exists z,
    ComputeZ s = Ret z /\ size z = size s /\
    (forall i, 1 <= i < size s ->
       Znth z (i - 1) = Zarray s i /\ lcp_at s i (Znth z (i - 1))) /\
    (1 <= size s -> Znth z (size s - 1) = 0).
Proof.
  destruct (ComputeZ_ok s) as (z & E & Hs & Hz & Hlast).
  exists z. split; [assumption|]. split; [assumption|]. split; [|assumption].
  intros i Hi. split; [now apply Hz|].
  rewrite Hz by lia. apply lcp_at_Zarray. lia.
Qed.

(** X6.  The entries of the list of [ComputePeriods] are exactly the
    periods of [s]: [q] is listed if and only if [1 <= q <= |s|] and
    [s[j] = s[j + q]] wherever both indices are inside [s]. *)
Theorem ComputePeriods_true_periods s q :
  exists ps,
    ComputePeriods s = Ret ps /\
    (In q ps <->
     1 <= q <= size s /\
     forall j, 0 <= j -> j + q < size s -> Znth s j = Znth s (j + q)).
Proof.
  exists (periods_spec s). split; [apply ComputePeriods_ok|].
  apply periods_spec_is_period.
Qed.

(** X7.  On a non-empty vector [ComputeMinPeriod] returns the least
    period of [s]: a period [1 <= q <= |s|] that no other period is
    below. *)
Theorem ComputeMinPeriod_least_period s :
  s <> [] ->
  exists q,
    ComputeMinPeriod s = Ret q /\ is_period s q /\
    forall q', is_period s q' -> q <= q'.
Proof.
  intros Hne.
  destruct (ComputeMinPeriod_ok s Hne) as (q & E & Hq & Hmin).
  exists q. split; [exact E|]. split; [exact Hq | exact Hmin].
Qed.

Lemma ComputeMinPeriod_least_period_witness :
  [0; 0; 1; 0; 0; 1; 0] <> [] /\
  exists q,
    ComputeMinPeriod [0; 0; 1; 0; 0; 1; 0] = Ret q /\
    is_period [0; 0; 1; 0; 0; 1; 0] q /\
    forall q', is_period [0; 0; 1; 0; 0; 1; 0] q' -> q <= q'.
Proof.
  assert (H : [0; 0; 1; 0; 0; 1; 0] <> []) by discriminate.
  split; [exact H|]. exact (ComputeMinPeriod_least_period _ H).
Defined.

Lemma is_period_mul s q m :
  is_period s q -> (Z.of_nat (S m)) * q <= size s ->
  is_period s (Z.of_nat (S m) * q).
Proof.
  intros [Hq Hper]. induction m as [|m IH]; intros Hle.
  - replace (Z.of_nat 1 * q) with q by lia. split; assumption.
  - destruct IH as [Hq' Hper']; [lia|].
    split; [nia|]. intros j Hj Hlt.
    replace (Z.of_nat (S (S m)) * q) with (Z.of_nat (S m) * q + q) in * by lia.
    rewrite Hper' by lia. rewrite Hper by lia. f_equal. lia.
Qed.

(** X8.  The list of [ComputePeriods] is closed under multiples: with a
    period [q] it contains every multiple [k * q] that is at most [|s|]. *)
Theorem ComputePeriods_multiples s ps q k :
  ComputePeriods s = Ret ps -> In q ps -> 1 <= k -> k * q <= size s ->
  In (k * q) ps.
Proof.
  intros E Hin Hk Hle. rewrite ComputePeriods_ok in E. injection E as <-.
  apply periods_spec_is_period. apply periods_spec_is_period in Hin.
  replace k with (Z.of_nat (S (Z.to_nat (k - 1)))) in * by lia.
  now apply is_period_mul.
Qed.

Lemma ComputePeriods_multiples_witness :
  ComputePeriods [1; 0; 1; 0; 1; 0] = Ret [2; 4; 6] /\ In 2 [2; 4; 6] /\
  1 <= 3 /\ 3 * 2 <= size [1; 0; 1; 0; 1; 0] /\
  In (3 * 2) [2; 4; 6].
Proof.
  assert (H1 : ComputePeriods [1; 0; 1; 0; 1; 0] = Ret [2; 4; 6])
    by (vm_compute; reflexivity).
  assert (H2 : In 2 [2; 4; 6]) by (simpl; lia).
  assert (H3 : 1 <= 3) by lia.
  assert (H4 : 3 * 2 <= size [1; 0; 1; 0; 1; 0]) by (vm_compute; discriminate).
  split; [exact H1|]. split; [exact H2|]. split; [exact H3|]. split; [exact H4|].
  exact (ComputePeriods_multiples _ _ 2 3 H1 H2 H3 H4).
Defined.

(** ** Encoder and decoder: single steps, edge cases, other parameters *)

(** X9.  The layout that one repair produces.  On a window start
    [0 <= i], a period [1 <= q < p <= l] with the window inside [w], and
    an index width [0 <= lg <= 32], [repair] returns: the elements of [w]
    before [i + q], the marker [1], [p - q - 1] zeros, the elements of
    [w] from [i + l] on, the [lg] low bits of [i] and the flag [0]. *)
Theorem repair_layout l p lg i q w :
  0 <= i <= int_max -> 1 <= q < p -> p <= l -> i + l <= size w ->
  0 <= lg <= 32 ->
  repair l p lg i q w =
  Ret (firstn (Z.to_nat (i + q)) w ++ 1 :: repeat 0 (Z.to_nat (p - q - 1))
         ++ skipn (Z.to_nat (i + l)) w ++ bits i lg ++ [0]).
Proof.
  intros Hi Hq Hpl Hw Hlg.
  rewrite (repair_eq l p i q w) with (bs := bits i lg);
    try lia; [|apply toBinary_ok; lia].
  unfold collapsed. f_equal.
  rewrite <- !app_assoc. cbn [app]. rewrite <- !app_assoc. reflexivity.
Qed.

Lemma repair_layout_witness :
  0 <= 1 <= int_max /\ 1 <= 2 < 3 /\ 3 <= 5 /\
  1 + 5 <= size [7; 0; 1; 0; 1; 0; 8; 9] /\ 0 <= 2 <= 32 /\
  repair 5 3 2 1 2 [7; 0; 1; 0; 1; 0; 8; 9] =
  Ret (firstn (Z.to_nat (1 + 2)) [7; 0; 1; 0; 1; 0; 8; 9]
         ++ 1 :: repeat 0 (Z.to_nat (3 - 2 - 1))
         ++ skipn (Z.to_nat (1 + 5)) [7; 0; 1; 0; 1; 0; 8; 9] ++ bits 1 2 ++ [0]).
Proof.
  assert (H1 : 0 <= 1 <= int_max) by (unfold int_max; lia).
  assert (H2 : 1 <= 2 < 3) by lia.
  assert (H3 : 3 <= 5) by lia.
  assert (H4 : 1 + 5 <= size [7; 0; 1; 0; 1; 0; 8; 9]) by (vm_compute; discriminate).
  assert (H5 : 0 <= 2 <= 32) by lia.
  split; [exact H1|]. split; [exact H2|]. split; [exact H3|].
  split; [exact H4|]. split; [exact H5|].
  exact (repair_layout 5 3 2 1 2 _ H1 H2 H3 H4 H5).
Defined.

(** X10.  One decoder iteration undoes one repair.  If the scan of
    [encode] repairs the window at [i] of a working sequence [w] of
    length [n + 1] into [w'], then [unwind] on [w'] returns [w], having
    read the index [i] and stopped its backward scan at [i + q] on a bit
    equal to 1. *)
Theorem unwind_undoes_correct n l p w w' i q win :
  1 <= n -> n + 1 <= int_max -> size w = n + 1 ->
  0 <= i < (n + 1) - (l - 1) ->
  range w i (i + l) = Ret win -> ComputeMinPeriod win = Ret q -> q < p ->
  correct n l p (Z.log2_up n) i q w = Ret w' ->
  unwind n l p (Z.log2_up n) w' = Ret (w, mkEntry i (i + q) 1).
Proof.
  intros Hn Hint Hs Hi Er Em Hq Ec.
  apply (corr_undo n l p Hn Hint w w' i q Hs).
  split; [assumption|]. exists win. auto.
Qed.

Lemma unwind_undoes_correct_witness :
  1 <= 8 /\ 8 + 1 <= int_max /\ size [0; 0; 0; 0; 0; 0; 0; 0; 1] = 8 + 1 /\
  0 <= 0 < (8 + 1) - (6 - 1) /\
  range [0; 0; 0; 0; 0; 0; 0; 0; 1] 0 (0 + 6) = Ret [0; 0; 0; 0; 0; 0] /\
  ComputeMinPeriod [0; 0; 0; 0; 0; 0] = Ret 1 /\ 1 < 2 /\
  correct 8 6 2 (Z.log2_up 8) 0 1 [0; 0; 0; 0; 0; 0; 0; 0; 1]
    = Ret [0; 1; 0; 0; 1; 0; 0; 0; 0] /\
  unwind 8 6 2 (Z.log2_up 8) [0; 1; 0; 0; 1; 0; 0; 0; 0]
    = Ret ([0; 0; 0; 0; 0; 0; 0; 0; 1], mkEntry 0 (0 + 1) 1).
Proof.
  assert (H1 : 1 <= 8) by lia.
  assert (H2 : 8 + 1 <= int_max) by (unfold int_max; lia).
  assert (H3 : size [0; 0; 0; 0; 0; 0; 0; 0; 1] = 8 + 1) by reflexivity.
  assert (H4 : 0 <= 0 < (8 + 1) - (6 - 1)) by lia.
  assert (H5 : range [0; 0; 0; 0; 0; 0; 0; 0; 1] 0 (0 + 6) = Ret [0; 0; 0; 0; 0; 0])
    by (vm_compute; reflexivity).
  assert (H6 : ComputeMinPeriod [0; 0; 0; 0; 0; 0] = Ret 1)
    by (vm_compute; reflexivity).
  assert (H7 : 1 < 2) by lia.
  assert (H8 : correct 8 6 2 (Z.log2_up 8) 0 1 [0; 0; 0; 0; 0; 0; 0; 0; 1]
               = Ret [0; 1; 0; 0; 1; 0; 0; 0; 0]) by (vm_compute; reflexivity).
  split; [exact H1|]. split; [exact H2|]. split; [exact H3|]. split; [exact H4|].
  split; [exact H5|]. split; [exact H6|]. split; [exact H7|]. split; [exact H8|].
  exact (unwind_undoes_correct 8 6 2 _ _ 0 1 _ H1 H2 H3 H4 H5 H6 H7 H8).
Defined.

(** X11.  [encode] writes bits only: on a bit sequence of length [n],
    whatever [l] and [p], a returned sequence is a bit sequence. *)
Theorem encode_output_bits n l p x fuel out :
  n + 1 <= int_max -> size x = n -> bitvec x ->
  encode fuel x n l p = Ret out -> bitvec out.
Proof.
  intros Hint Hs Hb He.
  destruct (encode_Ret n l p x fuel out Hint Hs He) as (Hn & k & Hc & _).
  apply (chain_bitvec n l p Hn Hint k (x ++ [1])); auto.
  - now apply start_facts.
  - now apply start_bitvec.
Qed.

Lemma encode_output_bits_witness :
  8 + 1 <= int_max /\ size [0; 0; 0; 0; 0; 0; 0; 0] = 8 /\
  bitvec [0; 0; 0; 0; 0; 0; 0; 0] /\
  encode 2 [0; 0; 0; 0; 0; 0; 0; 0] 8 6 2 = Ret [0; 1; 0; 0; 1; 0; 0; 0; 0] /\
  bitvec [0; 1; 0; 0; 1; 0; 0; 0; 0].
Proof.
  assert (H1 : 8 + 1 <= int_max) by (unfold int_max; lia).
  assert (H2 : size [0; 0; 0; 0; 0; 0; 0; 0] = 8) by reflexivity.
  assert (H3 : bitvec [0; 0; 0; 0; 0; 0; 0; 0]).
  { unfold bitvec. repeat (constructor; [lia|]). constructor. }
  assert (H4 : encode 2 [0; 0; 0; 0; 0; 0; 0; 0] 8 6 2
               = Ret [0; 1; 0; 0; 1; 0; 0; 0; 0]) by (vm_compute; reflexivity).
  split; [exact H1|]. split; [exact H2|]. split; [exact H3|]. split; [exact H4|].
  exact (encode_output_bits 8 6 2 _ 2 _ H1 H2 H3 H4).
Defined.

Lemma chain_last n l p lg k w v' :
  chain n l p lg k w v' ->
  (k = 0%nat /\ v' = w) \/
  exists k' v i q, k = S k' /\ chain n l p lg k' w v /\ corr n l p lg v v' i q.
Proof.
  destruct 1 as [w|k w v v' i q Hc Hcorr]; [now left|].
  right. exists k, v, i, q. auto.
Qed.



Lemma scan_clean n l p lg w :
  (forall i, 0 <= i < (n + 1) - (l - 1) -> window_ok l p w i) ->
  scan n l p lg w = Ret (w, false).
Proof.
  intros Hok. unfold scan.
  destruct (Z.le_gt_cases 0 ((n + 1) - (l - 1))) as [Hhi|Hhi].
  - destruct (for_loop_total (fun (_ : Z) (st : vi * bool) => st = (w, false))
      0 ((n + 1) - (l - 1)) (scan_body n l p lg) (w, false)) as (st & E & ->); auto.
    intros j st Hj ->. exists (w, false). split; [|reflexivity].
    destruct (Hok j Hj) as (win & q & Er & Em & Hpq).
    unfold scan_body. rewrite Er. cbn [bind]. rewrite Em. cbn [bind].
    destruct (Z.ltb_spec q p); [lia | reflexivity].
  - now rewrite for_loop_empty by lia.
Qed.

Lemma encode_clean n l p x fuel :
  1 <= n ->
  (forall i, 0 <= i < (n + 1) - (l - 1) -> window_ok l p (x ++ [1]) i) ->
  encode (S fuel) x n l p = Ret (x ++ [1]).
Proof.
  intros Hn Hok. unfold encode, ceil_log2.
  destruct (Z.leb_spec 1 n); [|lia]. cbn [bind encode_loop].
  now rewrite scan_clean.
Qed.

(** X13.  [encode] returns its input followed by [1] exactly when every
    scanned window of that sequence already has minimal period at least
    [p]; this holds for every [l] and [p]. *)
Theorem encode_verbatim_iff n l p x :
  1 <= n -> n + 1 <= int_max -> size x = n ->
  ((forall i, 0 <= i < (n + 1) - (l - 1) -> window_ok l p (x ++ [1]) i) <->
   (forall fuel, encode (S fuel) x n l p = Ret (x ++ [1]))).
Proof.
  intros Hn Hint Hs. split.
  - intros Hok fuel. now apply encode_clean.
  - intros He.
    destruct (encode_Ret n l p x 1 (x ++ [1]) Hint Hs (He 0%nat)) as (_ & k & _ & Hok).
    exact Hok.
Qed.

Lemma encode_verbatim_iff_witness :
  1 <= 8 /\ 8 + 1 <= int_max /\ size [0; 0; 1; 0; 1; 1; 1; 0] = 8 /\
  ((forall i, 0 <= i < (8 + 1) - (6 - 1) ->
      window_ok 6 2 ([0; 0; 1; 0; 1; 1; 1; 0] ++ [1]) i) <->
   (forall fuel, encode (S fuel) [0; 0; 1; 0; 1; 1; 1; 0] 8 6 2
                 = Ret ([0; 0; 1; 0; 1; 1; 1; 0] ++ [1]))).
Proof.
  assert (H1 : 1 <= 8) by lia.
  assert (H2 : 8 + 1 <= int_max) by (unfold int_max; lia).
  assert (H3 : size [0; 0; 1; 0; 1; 1; 1; 0] = 8) by reflexivity.
  split; [exact H1|]. split; [exact H2|]. split; [exact H3|].
  exact (encode_verbatim_iff 8 6 2 _ H1 H2 H3).
Defined.

(** X14.  With a window length other than [p + ceil(log2 n) + 1] the
    encoder never returns a repaired sequence: whatever it returns is the
    input followed by [1]. *)
Theorem encode_other_window_length n l p x fuel out :
  n + 1 <= int_max -> size x = n -> l <> p + Z.log2_up n + 1 ->
  encode fuel x n l p = Ret out -> out = x ++ [1].
Proof.
  intros Hint Hs Hl He.
  destruct (encode_Ret n l p x fuel out Hint Hs He) as (Hn & k & Hc & _).
  destruct (start_facts x n Hs) as [Hsz _].
  destruct (chain_last _ _ _ _ _ _ _ Hc) as [[_ ->]|(k' & v & i & q & _ & Hc' & Hcorr)];
    [reflexivity|].
  pose proof (chain_size n l p Hn Hint k' (x ++ [1]) v Hsz Hc') as Hsv.
  destruct (corr_inv n l p Hn Hint v out i q Hsv Hcorr) as (_ & _ & _ & Hlp & _).
  lia.
Qed.

Lemma encode_other_window_length_witness :
  8 + 1 <= int_max /\ size [0; 0; 1; 0; 1; 1; 1; 0] = 8 /\
  7 <> 2 + Z.log2_up 8 + 1 /\
  encode 1 [0; 0; 1; 0; 1; 1; 1; 0] 8 7 2 = Ret [0; 0; 1; 0; 1; 1; 1; 0; 1] /\
  [0; 0; 1; 0; 1; 1; 1; 0; 1] = [0; 0; 1; 0; 1; 1; 1; 0] ++ [1].
Proof.
  assert (H1 : 8 + 1 <= int_max) by (unfold int_max; lia).
  assert (H2 : size [0; 0; 1; 0; 1; 1; 1; 0] = 8) by reflexivity.
  assert (H3 : 7 <> 2 + Z.log2_up 8 + 1) by (vm_compute; discriminate).
  assert (H4 : encode 1 [0; 0; 1; 0; 1; 1; 1; 0] 8 7 2
               = Ret [0; 0; 1; 0; 1; 1; 1; 0; 1]) by (vm_compute; reflexivity).
  split; [exact H1|]. split; [exact H2|]. split; [exact H3|]. split; [exact H4|].
  exact (encode_other_window_length 8 7 2 _ 1 _ H1 H2 H3 H4).
Defined.

(** X15.  With a period bound [p <= 1] nothing can violate it: for every
    window length [l >= 1], [encode] returns its input followed by [1]
    after one pass. *)
Theorem encode_trivial_bound n l p x fuel :
  1 <= n -> size x = n -> 1 <= l -> p <= 1 ->
  encode (S fuel) x n l p = Ret (x ++ [1]).
Proof.
  intros Hn Hs Hl Hp. apply encode_clean; [assumption|].
  intros i Hi. destruct (start_facts x n Hs) as [Hsz _].
  destruct (range (x ++ [1]) i (i + l)) as [win| | |] eqn:Er;
    try (rewrite range_ok in Er by lia; discriminate).
  pose proof Er as Er'. apply range_inv in Er'. destruct Er' as (_ & _ & Hsw & _).
  assert (Hne : win <> []) by (intros ->; rewrite size_nil in Hsw; lia).
  destruct (ComputeMinPeriod_ok win Hne) as (q & Em & [Hq _] & _).
  exists win, q. split; [assumption|]. split; [assumption | lia].
Qed.

Lemma encode_trivial_bound_witness :
  1 <= 8 /\ size [0; 0; 0; 0; 0; 0; 0; 0] = 8 /\ 1 <= 5 /\ 1 <= 1 /\
  encode (S 0) [0; 0; 0; 0; 0; 0; 0; 0] 8 5 1 = Ret ([0; 0; 0; 0; 0; 0; 0; 0] ++ [1]).
Proof.
  assert (H1 : 1 <= 8) by lia.
  assert (H2 : size [0; 0; 0; 0; 0; 0; 0; 0] = 8) by reflexivity.
  assert (H3 : 1 <= 5) by lia.
  assert (H4 : 1 <= 1) by lia.
  split; [exact H1|]. split; [exact H2|]. split; [exact H3|]. split; [exact H4|].
  exact (encode_trivial_bound 8 5 1 _ 0 H1 H2 H3 H4).
Defined.




(** X17.  For every [l] and [p], whatever [encode] returns is decoded to
    the input; hence two inputs of length [n] with the same encoding are
    equal. *)
Theorem decode_inverts_any_encoding n l p x fuel out :
  n + 1 <= int_max -> size x = n -> encode fuel x n l p = Ret out ->
  (exists k, forall fuel', (S k <= fuel')%nat -> decode fuel' out n l p = Ret x) /\
  (forall y fuel2, size y = n -> encode fuel2 y n l p = Ret out -> y = x).
Proof.
  intros Hint Hs He.
  destruct (decode_encode_Ret n l p x fuel out Hint Hs He) as (k & Hk).
  split; [eauto|].
  intros y fuel2 Hsy Hey.
  destruct (decode_encode_Ret n l p y fuel2 out Hint Hsy Hey) as (k2 & Hk2).
  specialize (Hk (S (k + k2)) ltac:(lia)). specialize (Hk2 (S (k + k2)) ltac:(lia)).
  rewrite Hk in Hk2. now injection Hk2.
Qed.

Lemma decode_inverts_any_encoding_witness :
  8 + 1 <= int_max /\ size [0; 1; 0; 1; 0; 1; 0; 1] = 8 /\
  encode 3 [0; 1; 0; 1; 0; 1; 0; 1] 8 7 3 = Ret [0; 1; 1; 1; 1; 0; 0; 0; 0] /\
  (exists k, forall fuel', (S k <= fuel')%nat ->
     decode fuel' [0; 1; 1; 1; 1; 0; 0; 0; 0] 8 7 3 = Ret [0; 1; 0; 1; 0; 1; 0; 1]) /\
  (forall y fuel2, size y = 8 ->
     encode fuel2 y 8 7 3 = Ret [0; 1; 1; 1; 1; 0; 0; 0; 0] ->
     y = [0; 1; 0; 1; 0; 1; 0; 1]).
Proof.
  assert (H1 : 8 + 1 <= int_max) by (unfold int_max; lia).
  assert (H2 : size [0; 1; 0; 1; 0; 1; 0; 1] = 8) by reflexivity.
  assert (H3 : encode 3 [0; 1; 0; 1; 0; 1; 0; 1] 8 7 3
               = Ret [0; 1; 1; 1; 1; 0; 0; 0; 0]) by (vm_compute; reflexivity).
  split; [exact H1|]. split; [exact H2|]. split; [exact H3|].
  exact (decode_inverts_any_encoding 8 7 3 _ 3 _ H1 H2 H3).
Defined.

Lemma at_last x b n : size x = n -> at_ (x ++ [b]) n = Ret b.
Proof.
  intros Hs. pose proof (size_nonneg x).
  rewrite at_ok by (autorewrite with vsize; lia).
  rewrite Znth_app by lia.
  destruct (Z.ltb_spec n (size x)); [lia|].
  rewrite Hs, Z.sub_diag. reflexivity.
Qed.

(** X18.  Any non-zero element at index [n] ends the decoding at once:
    on a vector [x ++ [b]] with [|x| = n] and [b <> 0], [decode] returns
    [x] unchanged, whatever [x] holds and whatever [l] and [p] are. *)
Theorem decode_terminator n l p x b fuel :
  1 <= n -> size x = n -> b <> 0 ->
  decode (S fuel) (x ++ [b]) n l p = Ret x.
Proof.
  intros Hn Hs Hb. unfold decode, decode_run, ceil_log2.
  destruct (Z.leb_spec 1 n); [|lia]. cbn [bind decode_loop].
  rewrite (at_last x b n Hs). cbn [bind].
  destruct (Z.eqb_spec b 0); [contradiction|].
  cbn [bind]. rewrite erase_last_app. reflexivity.
Qed.

Lemma decode_terminator_witness :
  1 <= 3 /\ size [5; 0; 7] = 3 /\ 2 <> 0 /\
  decode (S 0) ([5; 0; 7] ++ [2]) 3 4 1 = Ret [5; 0; 7].
Proof.
  assert (H1 : 1 <= 3) by lia.
  assert (H2 : size [5; 0; 7] = 3) by reflexivity.
  assert (H3 : 2 <> 0) by lia.
  split; [exact H1|]. split; [exact H2|]. split; [exact H3|].
  exact (decode_terminator 3 4 1 [5; 0; 7] 2 0 H1 H2 H3).
Defined.

Lemma unwind_size n l p lg v v' e :
  unwind n l p lg v = Ret (v', e) -> size v' = n + 1.
Proof.
  unfold unwind. intros H. repeat bind_inv H.
  match type of H with
  | (if ?c then _ else _) = _ => destruct c eqn:Ec; [|discriminate]
  end.
  injection H as <- _. now apply Z.eqb_eq.
Qed.

Lemma decode_loop_size n l p lg fuel : forall v log v' log',
  size v = n + 1 -> decode_loop fuel n l p lg v log = Ret (v', log') ->
  size v' = n + 1.
Proof.
  induction fuel as [|f IH]; intros v log v' log' Hs H; [discriminate|].
  cbn [decode_loop] in H. bind_inv H.
  destruct (a =? 0).
  - destruct (unwind n l p lg v) as [[v2 e]| | |] eqn:Eu; try discriminate.
    cbn [bind] in H. apply (IH v2 (log ++ [e]) v' log'); [|assumption].
    now apply (unwind_size n l p lg v v2 e).
  - now injection H as <- _.
Qed.

Lemma erase_last_size v w : erase_last v = Ret w -> size w = size v - 1.
Proof.
  unfold erase_last. destruct (Z.leb_spec 1 (size v)); [|discriminate].
  intros [= <-]. rewrite size_firstn. lia.
Qed.

(** X19.  On every vector of length [n + 1], produced by [encode] or not,
    a result of [decode] has length [n]. *)
Theorem decode_length n l p out fuel x :
  size out = n + 1 -> decode fuel out n l p = Ret x -> size x = n.
Proof.
  intros Hs H. unfold decode, decode_run in H.
  bind_inv H. destruct a as [v log]. injection H as <-.
  bind_inv E. bind_inv E. destruct a0 as [v' log']. bind_inv E.
  injection E as <- _.
  apply decode_loop_size in E1; [|assumption].
  apply erase_last_size in E2. lia.
Qed.

Lemma decode_length_witness :
  size [0; 1; 0; 0; 1; 0; 0; 0; 0] = 8 + 1 /\
  decode 2 [0; 1; 0; 0; 1; 0; 0; 0; 0] 8 6 2 = Ret [0; 0; 0; 0; 0; 0; 0; 0] /\
  size [0; 0; 0; 0; 0; 0; 0; 0] = 8.
Proof.
  assert (H1 : size [0; 1; 0; 0; 1; 0; 0; 0; 0] = 8 + 1) by reflexivity.
  assert (H2 : decode 2 [0; 1; 0; 0; 1; 0; 0; 0; 0] 8 6 2
               = Ret [0; 0; 0; 0; 0; 0; 0; 0]) by (vm_compute; reflexivity).
  split; [exact H1|]. split; [exact H2|].
  exact (decode_length 8 6 2 _ 2 _ H1 H2).
Defined.

(** X20.  The bound carries over to longer windows: on valid
    parameters, every contiguous stretch of at least [l] elements of the
    encoding has no period below [p], and [ComputeMinPeriod] on it
    returns at least [p]. *)
Theorem encode_longer_windows n l p x :
  valid n l p -> size x = n -> bitvec x ->
  exists out,
    (forall fuel, (passes n <= fuel)%nat -> encode fuel x n l p = Ret out) /\
    forall a L win,
      l <= L -> range out a (a + L) = Ret win ->
      (forall q, is_period win q -> p <= q) /\
      exists q, ComputeMinPeriod win = Ret q /\ p <= q.
Proof.
  intros Hv Hs Hb.
  destruct (encode_total n l p x Hv Hs Hb) as (out & k & He & Hc & _ & Hok).
  destruct Hv as (Hn & Hint & Hp & Hl).
  destruct (log2_up_bounds n ltac:(lia)) as [Hlg _].
  assert (Hso : size out = n + 1).
  { apply (chain_size n l p Hn Hint k (x ++ [1])); [|assumption].
    now apply start_facts. }
  exists out. split; [assumption|].
  intros a L win HL Er. apply range_inv in Er.
  destruct Er as (Ha & HaL & Hsw & Hwin).
  destruct (Hok a ltac:(lia)) as (wl & q0 & Erl & Eml & Hq0).
  apply range_inv in Erl. destruct Erl as (_ & _ & Hswl & Hwl).
  apply ComputeMinPeriod_inv in Eml. destruct Eml as [_ Hmin].
  assert (Hall : forall q, is_period win q -> p <= q).
  { intros q [Hq Hper]. destruct (Z.le_gt_cases p q) as [|Hlt]; [assumption|].
    assert (Hql : is_period wl q).
    { split; [lia|]. intros j Hj Hjq.
      rewrite !Hwl by lia. rewrite <- !Hwin by lia. apply Hper; lia. }
    specialize (Hmin q Hql). lia. }
  split; [exact Hall|].
  assert (Hne : win <> []) by (intros ->; rewrite size_nil in Hsw; lia).
  destruct (ComputeMinPeriod_ok win Hne) as (q & Em & Hq & _).
  exists q. split; [assumption | now apply Hall].
Qed.

Lemma encode_longer_windows_witness :
  valid 8 6 2 /\ size [1; 1; 1; 1; 1; 1; 1; 1] = 8 /\
  bitvec [1; 1; 1; 1; 1; 1; 1; 1] /\
  exists out,
    (forall fuel, (passes 8 <= fuel)%nat ->
       encode fuel [1; 1; 1; 1; 1; 1; 1; 1] 8 6 2 = Ret out) /\
    forall a L win,
      6 <= L -> range out a (a + L) = Ret win ->
      (forall q, is_period win q -> 2 <= q) /\
      exists q, ComputeMinPeriod win = Ret q /\ 2 <= q.
Proof.
  assert (H1 : valid 8 6 2).
  { unfold valid, int_max. split; [lia|]. split; [lia|]. split; [lia|]. reflexivity. }
  assert (H2 : size [1; 1; 1; 1; 1; 1; 1; 1] = 8) by reflexivity.
  assert (H3 : bitvec [1; 1; 1; 1; 1; 1; 1; 1]).
  { unfold bitvec. repeat (constructor; [lia|]). constructor. }
  split; [exact H1|]. split; [exact H2|]. split; [exact H3|].
  exact (encode_longer_windows 8 6 2 _ H1 H2 H3).
Defined.

(** ** The test driver *)

Lemma div_int_ok a b : b <> 0 -> b <> -1 -> div_int a b = Ret (Z.quot a b).
Proof.
  intros H0 H1. unfold div_int.
  destruct (Z.eqb_spec b 0); [contradiction|].
  destruct (Z.eqb_spec b (-1)); [contradiction|].
  now rewrite andb_false_r.
Qed.

Lemma rem_int_ok a b : b <> 0 -> b <> -1 -> rem_int a b = Ret (Z.rem a b).
Proof.
  intros H0 H1. unfold rem_int.
  destruct (Z.eqb_spec b 0); [contradiction|].
  destruct (Z.eqb_spec b (-1)); [contradiction|].
  now rewrite andb_false_r.
Qed.

Lemma shl_one n : 0 <= n <= 30 -> shl 1 n = Ret (2 ^ n).
Proof.
  intros Hn. unfold shl.
  destruct (Z.leb_spec 0 n), (Z.ltb_spec n 32); try lia. cbn [andb].
  rewrite Z.shiftl_1_l. f_equal. apply wrap_small.
  assert (0 < 2 ^ n < 2 ^ 31)
    by (split; [apply Z.pow_pos_nonneg; lia | apply Z.pow_lt_mono_r; lia]).
  unfold int_min, int_max. lia.
Qed.

Lemma pow2_ge_128 n : 7 <= n -> 128 <= 2 ^ n.
Proof. intros Hn. change 128 with (2 ^ 7). apply Z.pow_le_mono_r; lia. Qed.

(** The checks on one input number pass. *)
Lemma check_input_ok fuel n l p num :
  valid n l p -> n <= 30 -> 0 <= num < 2 ^ n -> (passes n <= fuel)%nat ->
  check_input fuel n l p num = Ret tt.
Proof.
  intros Hv Hn30 Hnum Hfuel. pose proof Hv as (Hn & Hint & Hp & Hl).
  assert (Hnum' : 0 <= num <= int_max).
  { assert (2 ^ n < 2 ^ 31) by (apply Z.pow_lt_mono_r; lia).
    unfold int_max. lia. }
  pose proof (toBinary_ok num n Hnum' ltac:(lia)) as Hbits.
  unfold toBinary in Hbits. rewrite make_ok in Hbits by lia. cbn [bind] in Hbits.
  unfold check_input. rewrite make_ok by lia. cbn [bind].
  rewrite Hbits. cbn [bind].
  assert (Hs : size (bits num n) = n) by (apply size_bits; lia).
  destruct (encode_total n l p (bits num n) Hv Hs (bitvec_bits num n))
    as (out & k & He & Hc & Hk & Hok).
  rewrite (He fuel Hfuel). cbn [bind].
  assert (Hwin :
    for_loop 0 ((n + 1) - (l - 1))
      (fun i (_ : unit) =>
         v_sub <- range out i (i + l) ;;
         period <- ComputeMinPeriod v_sub ;;
         if period >=? p then Ret tt else AssertFail) tt = Ret tt).
  { destruct (Z.le_gt_cases 0 ((n + 1) - (l - 1))) as [Hhi|Hhi].
    - destruct (for_loop_total (fun (_ : Z) (_ : unit) => True)
        0 ((n + 1) - (l - 1))
        (fun i (_ : unit) =>
           v_sub <- range out i (i + l) ;;
           period <- ComputeMinPeriod v_sub ;;
           if period >=? p then Ret tt else AssertFail) tt) as ([] & E & _); auto.
      intros j [] Hj _. destruct (Hok j Hj) as (win & q & Er & Em & Hpq).
      rewrite Er. cbn [bind]. rewrite Em. cbn [bind].
      assert (Hge : (q >=? p) = true) by (apply Z.geb_le; lia).
      rewrite Hge. exists tt. auto.
    - now rewrite for_loop_empty by lia. }
  rewrite Hwin. cbn [bind].
  destruct (decode_of_chain n l p (bits num n) out k Hn Hint Hs Hc) as (es & Hd & _).
  unfold decode. rewrite Hd by lia. cbn [bind].
  destruct (list_eq_dec Z.eq_dec (bits num n) (bits num n)); [reflexivity | contradiction].
Qed.

(** The number of multiples of [d] below [num]. *)
Lemma ceil_div_step d num :
  0 < d -> 0 <= num ->
  (num mod d = 0 -> (num + d - 1) / d = num / d /\ (num + 1 + d - 1) / d = num / d + 1) /\
  (num mod d <> 0 -> (num + 1 + d - 1) / d = (num + d - 1) / d).
Proof.
  intros Hd Hnum.
  pose proof (Z.div_mod num d ltac:(lia)) as Hdm.
  pose proof (Z.mod_pos_bound num d Hd) as Hb.
  split.
  - intros H0. rewrite H0 in Hdm. split; symmetry.
    + apply (Z.div_unique _ _ _ (d - 1)); lia.
    + apply (Z.div_unique _ _ _ 0); lia.
  - intros Hne.
    rewrite <- (Z.div_unique (num + 1 + d - 1) d (num / d + 1) (num mod d)) by lia.
    rewrite <- (Z.div_unique (num + d - 1) d (num / d + 1) (num mod d - 1)) by lia.
    reflexivity.
Qed.

Lemma report_ok n num shown :
  7 <= n <= 30 -> 0 <= num ->
  report n num shown =
  Ret (if num mod (2 ^ n / 100) =? 0 then shown ++ [num / (2 ^ n / 100)] else shown).
Proof.
  intros Hn Hnum. unfold report.
  rewrite shl_one by lia. cbn [bind].
  rewrite div_int_ok by lia. cbn [bind].
  pose proof (pow2_ge_128 n ltac:(lia)) as H128.
  rewrite Z.quot_div_nonneg by lia.
  assert (Hd : 1 <= 2 ^ n / 100) by (apply Z.div_le_lower_bound; lia).
  rewrite rem_int_ok by lia. cbn [bind].
  rewrite Z.rem_mod_nonneg by lia.
  destruct (num mod (2 ^ n / 100) =? 0); [|reflexivity].
  rewrite div_int_ok by lia. cbn [bind]. rewrite Z.quot_div_nonneg by lia.
  reflexivity.
Qed.

Lemma add_ok x y : int_min <= x + y <= int_max -> add x y = Ret (x + y).
Proof.
  intros H. unfold add.
  destruct (Z.leb_spec int_min (x + y)), (Z.leb_spec (x + y) int_max); try lia.
  reflexivity.
Qed.

(** X21.  The driver completes: with [7 <= n <= 30] and [p >= 1] (and
    [l = ceil(log2 n) + p + 1] an [int]) none of its assertions fails on
    any of the [2^n] inputs -- every window of every encoding has minimal
    period at least [p] and every encoding is decoded to its input -- and
    the progress values it displays are [0, 1, ...], one for each
    multiple of [2^n / 100] below [2^n]. *)
Theorem driver_passes n p :
  7 <= n <= 30 -> 1 <= p -> p + Z.log2_up n + 1 <= int_max ->
  forall fuel, (passes n <= fuel)%nat ->
    driver fuel n p =
    Ret (zseq 0 (Z.to_nat ((2 ^ n + 2 ^ n / 100 - 1) / (2 ^ n / 100)))).
Proof.
  intros Hn Hp Hl fuel Hfuel.
  assert (Hint : n + 1 <= int_max) by (unfold int_max; lia).
  destruct (log2_up_bounds n ltac:(lia)) as [Hlg _].
  unfold driver, ceil_log2. destruct (Z.leb_spec 1 n); [|lia]. cbn [bind].
  rewrite add_ok by (unfold int_min, int_max in *; lia). cbn [bind].
  rewrite add_ok by (unfold int_min, int_max in *; lia). cbn [bind].
  set (l := Z.log2_up n + p + 1).
  assert (Hge : (l >=? l) = true) by (apply Z.geb_le; lia).
  rewrite Hge. rewrite shl_one by lia. cbn [bind].
  assert (Hv : valid n l p) by (unfold valid, l; repeat split; lia).
  pose proof (pow2_ge_128 n ltac:(lia)) as H128.
  set (d := 2 ^ n / 100).
  assert (Hd : 1 <= d) by (apply Z.div_le_lower_bound; lia).
  destruct (for_loop_total
    (fun num shown => shown = zseq 0 (Z.to_nat ((num + d - 1) / d)))
    0 (2 ^ n)
    (fun num shown => _ <- check_input fuel n l p num ;; report n num shown) [])
    as (shown & E & Hshown).
  - lia.
  - rewrite Z.div_small by lia. reflexivity.
  - intros num shown Hnum ->.
    rewrite check_input_ok by (auto; lia). cbn [bind].
    rewrite report_ok by lia. fold d.
    eexists. split; [reflexivity|].
    destruct (ceil_div_step d num ltac:(lia) ltac:(lia)) as [H0 H1].
    assert (Hq : 0 <= num / d) by (apply Z.div_pos; lia).
    destruct (Z.eqb_spec (num mod d) 0) as [Hz|Hnz].
    + destruct (H0 Hz) as [Ha Hb]. rewrite Ha, Hb.
      replace (Z.to_nat (num / d + 1)) with (S (Z.to_nat (num / d))) by lia.
      rewrite zseq_snoc. do 2 f_equal. lia.
    + now rewrite (H1 Hnz).
  - rewrite E, Hshown. reflexivity.
Qed.

(** The instance of the driver that [main] is: it passes, and shows the
    progress values 0 to 100. *)
Lemma driver_passes_witness :
  7 <= 20 <= 30 /\ 1 <= 14 /\ 14 + Z.log2_up 20 + 1 <= int_max /\
  forall fuel, (passes 20 <= fuel)%nat ->
    main fuel =
    Ret (zseq 0 (Z.to_nat ((2 ^ 20 + 2 ^ 20 / 100 - 1) / (2 ^ 20 / 100)))).
Proof.
  assert (H1 : 7 <= 20 <= 30) by lia.
  assert (H2 : 1 <= 14) by lia.
  assert (H3 : 14 + Z.log2_up 20 + 1 <= int_max) by (vm_compute; discriminate).
  split; [exact H1|]. split; [exact H2|]. split; [exact H3|].
  exact (driver_passes 20 14 H1 H2 H3).
Defined.


